(** * Mempool block projection (backend/src/api/mempool-blocks.ts)

    A shallow embedding of the [MempoolBlocks] class: the block packer
    ([calculateMempoolBlocks], [dataToMempoolBlocks]), the delta computer
    ([calculateMempoolDeltas]), the synchronous fast path
    ([updateMempoolBlocks]) and the finalisation of worker results
    ([processBlockTemplates]).  The worker protocol of
    [$makeBlockTemplates] and [$updateBlockTemplates] is not modelled.

    Conventions of the embedding.
    - A JavaScript [number] that may be fractional (fee rates, vsizes) is
      an exact rational [Qc]; equality on [Qc] is numeric equality, which is
      what [===] tests.  Weights, sizes and fees are integers ([Z]).  The
      product [BLOCK_WEIGHT_UNITS * 1.2] is the exact rational.
    - Transaction objects are shared and mutated in place ([tx.position],
      [tx.effectiveFeePerVsize], ...).  They live in a store ([heap]) and
      arrays hold references ([ref]) into it.
    - A mempool object [{ [txid: string]: TransactionExtended }] is the list
      of its own properties in [for ... in] order, each a key with the
      reference it holds.  Keys are txids, strings of hexadecimal digits:
      none is an array index or the name of a member of [Object.prototype],
      so the objects used as maps ([prevIds], [newIds], [clusters]) are
      finite maps that start empty.
    - [forEach] over an array is a left fold; [push] appends at the end.
    - Logging is left out. *)

From Stdlib Require Import ZArith QArith Qcanon Lqa.
From stdpp Require Import numbers strings sorting functions gmap list.

Open Scope Z_scope.

(** ** Numbers *)

Abbreviation number := Qc.

Definition num (z : Z) : number := Qc_of_Z z.

(** ** Data model *)

(** [{txid, fee, weight}] summaries of CPFP relatives. *)
Module Ancestor.
Record t := mk { txid : string; fee : Z; weight : Z }.
End Ancestor.

(** [tx.position = { block, vsize }]. *)
Module Position.
Record t := mk { block : nat; vsize : number }.
End Position.

(** The mempool-resident record; optional fields are options. *)
Module Tx.
Record t := mk {
  txid : string;
  fee : Z;
  weight : Z;
  vsize : number;
  size : Z;
  feePerVsize : number;
  effectiveFeePerVsize : number;
  vin : list string;
  ancestors : option (list Ancestor.t);
  descendants : option (list Ancestor.t);
  bestDescendant : option Ancestor.t;
  cpfpChecked : option bool;
  position : option Position.t
}.

Definition set_effectiveFeePerVsize (v : number) (tx : t) : t :=
  mk (txid tx) (fee tx) (weight tx) (vsize tx) (size tx) (feePerVsize tx)
     v (vin tx) (ancestors tx) (descendants tx) (bestDescendant tx)
     (cpfpChecked tx) (position tx).

Definition set_ancestors (v : option (list Ancestor.t)) (tx : t) : t :=
  mk (txid tx) (fee tx) (weight tx) (vsize tx) (size tx) (feePerVsize tx)
     (effectiveFeePerVsize tx) (vin tx) v (descendants tx)
     (bestDescendant tx) (cpfpChecked tx) (position tx).

Definition set_descendants (v : option (list Ancestor.t)) (tx : t) : t :=
  mk (txid tx) (fee tx) (weight tx) (vsize tx) (size tx) (feePerVsize tx)
     (effectiveFeePerVsize tx) (vin tx) (ancestors tx) v
     (bestDescendant tx) (cpfpChecked tx) (position tx).

Definition set_bestDescendant (v : option Ancestor.t) (tx : t) : t :=
  mk (txid tx) (fee tx) (weight tx) (vsize tx) (size tx) (feePerVsize tx)
     (effectiveFeePerVsize tx) (vin tx) (ancestors tx) (descendants tx)
     v (cpfpChecked tx) (position tx).

Definition set_cpfpChecked (v : option bool) (tx : t) : t :=
  mk (txid tx) (fee tx) (weight tx) (vsize tx) (size tx) (feePerVsize tx)
     (effectiveFeePerVsize tx) (vin tx) (ancestors tx) (descendants tx)
     (bestDescendant tx) v (position tx).

Definition set_position (v : option Position.t) (tx : t) : t :=
  mk (txid tx) (fee tx) (weight tx) (vsize tx) (size tx) (feePerVsize tx)
     (effectiveFeePerVsize tx) (vin tx) (ancestors tx) (descendants tx)
     (bestDescendant tx) (cpfpChecked tx) v.
End Tx.

(** Modelled from the spec: the declaration of [TransactionStripped]
    (mempool.interfaces) is not part of the sources.  The spec gives the
    compact client-facing form as [{txid, rate, ...}] with an optional
    rate; [fee] and [vsize] stand for the remaining payload. *)
Module Stripped.
Record t := mk { txid : string; fee : Z; vsize : number; rate : option number }.

#[global] Instance eq_dec : EqDecision t.
Proof. solve_decision. Defined.
End Stripped.

(** An entry [{ txid, rate }] of a delta's [changed] list. *)
Module Change.
Record t := mk { txid : string; rate : option number }.

#[global] Instance eq_dec : EqDecision t.
Proof. solve_decision. Defined.
End Change.

(** [MempoolBlockWithTransactions]. *)
Module Block.
Record t := mk {
  blockSize : Z;
  blockVSize : number;
  nTx : nat;
  totalFees : Z;
  medianFee : number;
  feeRange : list number;
  transactionIds : list string;
  transactions : list Stripped.t
}.
End Block.

(** [MempoolBlock], the summary served by [getMempoolBlocks]. *)
Module Summary.
Record t := mk {
  blockSize : Z;
  blockVSize : number;
  nTx : nat;
  totalFees : Z;
  medianFee : number;
  feeRange : list number
}.
End Summary.

(** [MempoolBlockDelta]. *)
Module Delta.
Record t := mk {
  added : list Stripped.t;
  removed : list string;
  changed : list Change.t
}.
End Delta.

(** The two private fields of the class that hold the published snapshot. *)
Module This.
Record t := mk {
  mempoolBlocks : list Block.t;
  mempoolBlockDeltas : list Delta.t
}.
End This.

(** ** The store of transaction objects *)

Definition ref := nat.
Definition heap := ref → Tx.t.

(** [h r .f = v] for a field setter [f]. *)
Definition assign (r : ref) (f : Tx.t → Tx.t) (h : heap) : heap :=
  <[r := f (h r)]> h.

(** Total weight and total vsize of the objects an array refers to. *)
Definition sumWeights (h : heap) (l : list ref) : Z :=
  foldr (λ r acc, Tx.weight (h r) + acc) 0 l.

Definition sumVsizes (h : heap) (l : list ref) : number :=
  foldr (λ r acc, (Tx.vsize (h r) + acc)%Qc) 0%Qc l.

(** ** Delta computer (lines 136-175) *)

Definition txids (txs : list Stripped.t) : list string := map Stripped.txid txs.

(** [prevBlocks[i].transactions.forEach(tx => prevIds[tx.txid] = tx)] *)
Definition mkPrevIds (txs : list Stripped.t) : gmap string Stripped.t :=
  foldl (λ prevIds tx, <[Stripped.txid tx := tx]> prevIds) ∅ txs.

(** [mempoolBlocks[i].transactions.forEach(tx => newIds[tx.txid] = true)] *)
Definition mkNewIds (txs : list Stripped.t) : gmap string bool :=
  foldl (λ newIds tx, <[Stripped.txid tx := true]> newIds) ∅ txs.

(** [if (!newIds[tx.txid]) removed.push(tx.txid)] *)
Definition removedStep (newIds : gmap string bool)
    (removed : list string) (tx : Stripped.t) : list string :=
  match newIds !! Stripped.txid tx with
  | Some true => removed
  | _ => removed ++ [Stripped.txid tx]
  end.

(** [if (!prevIds[tx.txid]) added.push(tx)
     else if (tx.rate !== prevIds[tx.txid].rate) changed.push(...)] *)
Definition addedStep (prevIds : gmap string Stripped.t)
    (acc : list Stripped.t * list Change.t) (tx : Stripped.t)
    : list Stripped.t * list Change.t :=
  match prevIds !! Stripped.txid tx with
  | None => (acc.1 ++ [tx], acc.2)
  | Some p =>
      if decide (Stripped.rate tx = Stripped.rate p) then acc
      else (acc.1, acc.2 ++ [Change.mk (Stripped.txid tx) (Stripped.rate tx)])
  end.

(** One iteration of the [for] loop, for the blocks found at index [i]. *)
Definition deltaAt (prev new : option Block.t) : Delta.t :=
  match new, prev with
  | Some n, None => Delta.mk (Block.transactions n) [] []
  | None, Some p => Delta.mk [] (txids (Block.transactions p)) []
  | Some n, Some p =>
      let prevIds := mkPrevIds (Block.transactions p) in
      let newIds := mkNewIds (Block.transactions n) in
      let removed := foldl (removedStep newIds) [] (Block.transactions p) in
      let ac := foldl (addedStep prevIds) ([], []) (Block.transactions n) in
      Delta.mk ac.1 removed ac.2
  | None, None => Delta.mk [] [] []
  end.

(** The [changed] entry a new record gives rise to, if any: its txid is
    in [prevIds] and the two rates differ under [!==]. *)
Definition changeOf (prevIds : gmap string Stripped.t) (tx : Stripped.t)
    : option Change.t :=
  p ← prevIds !! Stripped.txid tx;
  if decide (Stripped.rate tx = Stripped.rate p) then None
  else Some (Change.mk (Stripped.txid tx) (Stripped.rate tx)).

Definition calculateMempoolDeltas (prevBlocks mempoolBlocks : list Block.t)
    : list Delta.t :=
  map (λ i, deltaAt (prevBlocks !! i) (mempoolBlocks !! i))
      (seq 0 (Nat.max (length mempoolBlocks) (length prevBlocks))).

(** ** Worker results (the part of [ThreadTransaction] that
    [processBlockTemplates] reads) *)
Module Thread.
Record t := mk {
  txid : string;
  effectiveFeePerVsize : option number;
  cpfpRoot : option string;
  cpfpChecked : option bool
}.
End Thread.

(** A mempool object: its own properties in iteration order. *)
Abbreviation mempool := (list (string * ref)).

(** [mempool[txid]]: the reference stored under a key, if any. *)
Definition mempoolGet (memPool : mempool) (k : string) : option ref :=
  (list_to_map memPool : gmap string ref) !! k.

(** A string is truthy when it is not empty. *)
Definition truthy (s : string) : bool :=
  match s with EmptyString => false | _ => true end.

(** [Array.prototype.sort(cmp)]: [cmp a b < 0] puts [a] first.  The engine
    runs a merge sort; both comparators of this file never answer [0]. *)
Definition goesFirst (cmp : ref → ref → number) : relation ref :=
  λ a b, (cmp a b ≤ 0)%Qc.

#[global] Instance goesFirst_dec cmp a b : Decision (goesFirst cmp a b).
Proof. unfold goesFirst. apply _. Defined.

Definition sort (cmp : ref → ref → number) (l : list ref) : list ref :=
  merge_sort (goesFirst cmp) l.

(** The literal [4000000 * 8] of the resolver loop (line 71). *)
Definition RESOLVE_WEIGHT_CAP : Z := 4000000 * 8.

(** The mempool is keyed by txid: distinct keys, and the object stored
    under a key carries that key as its [txid]. *)
Definition keyed_by_txid (h : heap) (memPool : mempool) : Prop :=
  NoDup (map fst memPool) ∧
  ∀ k r, (k, r) ∈ memPool → Tx.txid (h r) = k.

(** Two stores that differ at most in the [position] fields. *)
Definition agree (h h' : heap) : Prop :=
  ∀ r, Tx.set_position None (h r) = Tx.set_position None (h' r).

(** What a block says about the array it was built from. *)
Definition blockOf (h : heap) (b : Block.t) (g : list ref) : Prop :=
  Block.transactionIds b = map (λ r, Tx.txid (h r)) g ∧
  Block.blockVSize b = (num (sumWeights h g) / num 4)%Qc ∧
  Block.nTx b = length g.

(** Two distinct elements of a list are always ordered one way or the
    other. *)
Definition comparableOn {A} (R : relation A) (l : list A) : Prop :=
  ∀ a b, a ∈ l → b ∈ l → a ≠ b → R a b ∨ R b a.

(** The order of the first sort: [feePerVsize] descending, ties broken by
    ascending txid. *)
Definition feeOrder (h : heap) : relation ref := λ a b,
  (Tx.feePerVsize (h b) < Tx.feePerVsize (h a))%Qc ∨
  (Tx.feePerVsize (h a) = Tx.feePerVsize (h b) ∧
   String.ltb (Tx.txid (h a)) (Tx.txid (h b)) = true).

(** The resolver leaves a field of every object alone. *)
Definition keeps {A} (field : Tx.t → A)
    (resolve : ref → mempool → heap → heap) : Prop :=
  ∀ r memPool h x, field (resolve r memPool h x) = field (h x).

(** The resolver assigns [effectiveFeePerVsize] on no other object than
    the one it is called on. *)
Definition resolves_own_rate (resolve : ref → mempool → heap → heap) : Prop :=
  ∀ r memPool h x, x ≠ r →
    Tx.effectiveFeePerVsize (resolve r memPool h x) =
    Tx.effectiveFeePerVsize (h x).

(** The rate the clearing pass leaves on an object it visits. *)
Definition clearedRate (tx : Tx.t) : number :=
  if decide (Tx.effectiveFeePerVsize tx = 0%Qc) then Tx.feePerVsize tx
  else Tx.effectiveFeePerVsize tx.

(** Total size and total fee of the objects an array refers to. *)
Definition sumSizes (h : heap) (l : list ref) : Z :=
  foldr (λ r acc, Tx.size (h r) + acc) 0 l.

Definition sumFees (h : heap) (l : list ref) : Z :=
  foldr (λ r acc, Tx.fee (h r) + acc) 0 l.

(** The resolver assigns a field on no other object than the one it is
    called on. *)
Definition keeps_other {A} (field : Tx.t → A)
    (resolve : ref → mempool → heap → heap) : Prop :=
  ∀ r memPool h x, x ≠ r → field (resolve r memPool h x) = field (h x).

(** The order of the final sort: [effectiveFeePerVsize] descending, ties
    broken by ascending txid. *)
Definition effectiveFeeOrder (h : heap) : relation ref := λ a b,
  (Tx.effectiveFeePerVsize (h b) < Tx.effectiveFeePerVsize (h a))%Qc ∨
  (Tx.effectiveFeePerVsize (h a) = Tx.effectiveFeePerVsize (h b) ∧
   String.ltb (Tx.txid (h a)) (Tx.txid (h b)) = true).

(** Two stores that hold the same transaction data and differ at most in
    the fields the projection writes: [position], [effectiveFeePerVsize],
    [ancestors], [descendants], [bestDescendant] and [cpfpChecked]. *)
Definition sameData (h h' : heap) : Prop :=
  ∀ r, Tx.txid (h' r) = Tx.txid (h r) ∧ Tx.fee (h' r) = Tx.fee (h r) ∧
       Tx.weight (h' r) = Tx.weight (h r) ∧ Tx.vsize (h' r) = Tx.vsize (h r) ∧
       Tx.size (h' r) = Tx.size (h r) ∧
       Tx.feePerVsize (h' r) = Tx.feePerVsize (h r) ∧
       Tx.vin (h' r) = Tx.vin (h r).

(** The worker transactions whose txid is not empty and is a key of the
    mempool, with the object each one stands for. *)
Definition liveRef (memPool : mempool) (tx : Thread.t) : option ref :=
  if truthy (Thread.txid tx) then mempoolGet memPool (Thread.txid tx) else None.

(** The [{txid, fee, weight}] entry a cluster member gives, when its txid
    is not empty and is a key of the mempool. *)
Definition clusterRelative (memPool : mempool) (h : heap) (txid : string)
    : option Ancestor.t :=
  if truthy txid
  then p ← mempoolGet memPool txid;
       Some (Ancestor.mk txid (Tx.fee (h p)) (Tx.weight (h p)))
  else None.

(** The filter applied to a worker reply (lines 219 and 268):
    [blocks.map(block => block.filter(tx => tx.txid && tx.txid in newMempool))] *)
Definition staleFilter (newMempool : mempool) (blocks : list (list Thread.t))
    : list (list Thread.t) :=
  map (filter (λ tx, truthy (Thread.txid tx) = true ∧
                     is_Some (mempoolGet newMempool (Thread.txid tx))))
      blocks.

(** ** The collaborators of [Common]

    Their code is outside the sources.  The development is parametric in
    them; the instances below follow the specification and serve the
    closed examples at the end of the file. *)
Module Common.

(** Modelled from the spec: [Common.stripTransaction], absent from the
    sources, yields the compact public form of a transaction, whose rate is
    the effective fee rate. *)
Definition stripTransaction (tx : Tx.t) : Stripped.t :=
  Stripped.mk (Tx.txid tx) (Tx.fee tx) (num (Tx.weight tx) / num 4)%Qc
    (Some (Tx.effectiveFeePerVsize tx)).

(** Modelled from the spec: [Common.calcEffectiveFeeStatistics], absent
    from the sources, gives a median fee and a sequence of percentile fee
    rates over all the transactions of a block.  The percentiles are
    configuration; this instance takes the lowest and the highest rate. *)
Definition calcEffectiveFeeStatistics (txs : list Tx.t) : number * list number :=
  let rates := map Tx.effectiveFeePerVsize txs in
  (default 0%Qc (rates !! (length rates / 2)%nat),
   option_list (last rates) ++ option_list (head rates)).

Definition relativeOf (tx : Tx.t) : Ancestor.t :=
  Ancestor.mk (Tx.txid tx) (Tx.fee tx) (Tx.weight tx).

Definition rateOf (a : Ancestor.t) : number :=
  (num (Ancestor.fee a) / (num (Ancestor.weight a) / num 4))%Qc.

(** The ancestors reachable through [vin] whose txid is in the mempool. *)
Fixpoint findAllParents (fuel : nat) (memPool : mempool) (h : heap) (r : ref)
    : list ref :=
  match fuel with
  | O => []
  | S fuel =>
      flat_map (λ txid,
                  match mempoolGet memPool txid with
                  | Some p => p :: findAllParents fuel memPool h p
                  | None => []
                  end)
               (Tx.vin (h r))
  end.

(** An ancestor takes the candidate as best descendant when it improves
    upon the one it has. *)
Definition liftStep (candidate : Ancestor.t) (h : heap) (p : ref) : heap :=
  match Tx.bestDescendant (h p) with
  | Some d =>
      if decide (rateOf d < rateOf candidate)%Qc
      then assign p (Tx.set_bestDescendant (Some candidate)) h
      else h
  | None => assign p (Tx.set_bestDescendant (Some candidate)) h
  end.

(** Modelled from the spec: [Common.setRelativesAndGetCpfpInfo], absent
    from the sources, follows the contract of the relatives resolver and
    scenario S2: it fills [tx.ancestors] with the ancestors found in the
    mempool, offers [tx] (or its best descendant, whichever pays the higher
    rate) to each ancestor as best descendant, sets
    [tx.effectiveFeePerVsize] to the rate of the package made of [tx], its
    ancestors that pay a lower rate and its best descendant, and sets
    [tx.cpfpChecked]. *)
Definition setRelativesAndGetCpfpInfo (r : ref) (memPool : mempool) (h : heap)
    : heap :=
  let tx := h r in
  let parents := remove_dups (findAllParents (length memPool) memPool h r) in
  let candidate :=
    match Tx.bestDescendant tx with
    | Some d => if decide (rateOf (relativeOf tx) < rateOf d)%Qc
                then d else relativeOf tx
    | None => relativeOf tx
    end in
  let h := foldl (liftStep candidate) h parents in
  let lowerFeeParents :=
    filter (λ p, (Tx.feePerVsize (h p) < Tx.effectiveFeePerVsize tx)%Qc) parents in
  let lifted := from_option (λ d, [d]) [] (Tx.bestDescendant tx) in
  let package :=
    Ancestor.mk (Tx.txid tx)
      (Tx.fee tx + foldr (λ p acc, Tx.fee (h p) + acc) 0 lowerFeeParents
                 + foldr (λ d acc, Ancestor.fee d + acc) 0 lifted)
      (Tx.weight tx + sumWeights h lowerFeeParents
                    + foldr (λ d acc, Ancestor.weight d + acc) 0 lifted) in
  let h := assign r (Tx.set_ancestors (Some (map (λ p, relativeOf (h p)) parents))) h in
  let h := assign r (Tx.set_effectiveFeePerVsize (rateOf package)) h in
  assign r (Tx.set_cpfpChecked (Some true)) h.

End Common.

(** ** Sample inputs *)

(** A transaction as the ingestion layer delivers it: [vsize = weight / 4],
    [feePerVsize = fee / vsize], and [effectiveFeePerVsize] starting at
    [feePerVsize]. *)
Definition mkTx (txid : string) (fee weight size : Z) (vin : list string) : Tx.t :=
  let rate := (num fee / (num weight / num 4))%Qc in
  Tx.mk txid fee weight (num weight / num 4)%Qc size rate rate vin
        None None None None None.

(** The store whose object [r] is the [r]-th record of a list. *)
Definition heapOf (txs : list Tx.t) : heap :=
  λ r, default (mkTx "" 0 0 0 []) (txs !! r).

(** Three small transactions; ["bb"] spends an output of ["cc"]. *)
Definition sampleHeap : heap :=
  heapOf [ mkTx "aa" 1000 400 100 [];
           mkTx "bb" 2000 400 100 ["cc"];
           mkTx "cc" 100 400 100 [] ].

Definition sampleMempool : mempool :=
  [("aa", 0%nat); ("bb", 1%nat); ("cc", 2%nat)].

(** Scenario S2: a parent paying nothing and its child. *)
Definition cpfpHeap : heap :=
  heapOf [ mkTx "pp" 0 400 100 [];
           mkTx "cc" 2000 400 100 ["pp"] ].

Definition cpfpMempool : mempool := [("pp", 0%nat); ("cc", 1%nat)].

(** Scenario S3: ten transactions of half a block each, decreasing fees. *)
Definition overflowHeap : heap :=
  heapOf (imap (λ i txid, mkTx txid (20 - Z.of_nat i) 2000000 500000 [])
               ["a"; "b"; "c"; "d"; "e"; "f"; "g"; "h"; "i"; "j"]).

(** Three transactions of half a block each. *)
Definition halfBlockHeap : heap :=
  heapOf [ mkTx "h1" 3000000 2000000 500000 [];
           mkTx "h2" 2000000 2000000 500000 [];
           mkTx "h3" 1000000 2000000 500000 [] ].

(** A transaction heavier than a block of 4000000 weight units, followed
    by a small one. *)
Definition oversizeHeap : heap :=
  heapOf [ mkTx "aa" 5000000 5000000 1250000 [];
           mkTx "bb" 100 100 25 [] ].

(** Nine transactions of 4000000 weight units with decreasing fees.  The
    last one enters the call with the rate [5] of an earlier projection,
    above its own [feePerVsize] of [1]. *)
Definition fullHeap : heap :=
  heapOf [ mkTx "a1" 9000000 4000000 1000000 [];
           mkTx "a2" 8000000 4000000 1000000 [];
           mkTx "a3" 7000000 4000000 1000000 [];
           mkTx "a4" 6000000 4000000 1000000 [];
           mkTx "a5" 5000000 4000000 1000000 [];
           mkTx "a6" 4000000 4000000 1000000 [];
           mkTx "a7" 3000000 4000000 1000000 [];
           mkTx "a8" 2000000 4000000 1000000 [];
           Tx.set_effectiveFeePerVsize (num 5)
             (mkTx "a9" 1000000 4000000 1000000 []) ].

Definition fullMempool : mempool :=
  [("a1", 0%nat); ("a2", 1%nat); ("a3", 2%nat); ("a4", 3%nat); ("a5", 4%nat);
   ("a6", 5%nat); ("a7", 6%nat); ("a8", 7%nat); ("a9", 8%nat)].

(** Nine transactions of 1000000 weight units, for a configuration with
    [BLOCK_WEIGHT_UNITS = 1000000]. *)
Definition smallBlocksHeap : heap :=
  heapOf [ mkTx "a1" 9000000 1000000 250000 [];
           mkTx "a2" 8000000 1000000 250000 [];
           mkTx "a3" 7000000 1000000 250000 [];
           mkTx "a4" 6000000 1000000 250000 [];
           mkTx "a5" 5000000 1000000 250000 [];
           mkTx "a6" 4000000 1000000 250000 [];
           mkTx "a7" 3000000 1000000 250000 [];
           mkTx "a8" 2000000 1000000 250000 [];
           mkTx "a9" 1000000 1000000 250000 [] ].

(** Scenario S4: block 0 holds ["aa"] at rate 5, then at rate 7. *)
Definition blockWith (txs : list Stripped.t) : Block.t :=
  Block.mk 0 0%Qc (length txs) 0 0%Qc [] (txids txs) txs.

Definition prevSample : list Block.t :=
  [blockWith [Stripped.mk "aa" 1000 (num 100) (Some (num 5));
              Stripped.mk "bb" 1000 (num 100) (Some (num 3))]].

Definition newSample : list Block.t :=
  [blockWith [Stripped.mk "aa" 1000 (num 100) (Some (num 7));
              Stripped.mk "cc" 1000 (num 100) None]].

(** A worker reply over the three sample transactions: ["cc"] and its
    child ["bb"] form a cluster rooted at ["cc"]; ["zz"] and ["gone"] are
    stale, and the second block holds a transaction without txid. *)
Definition workerBlocks : list (list Thread.t) :=
  [ [ Thread.mk "bb" (Some (num 13)) (Some "cc") (Some true);
      Thread.mk "zz" None None None;
      Thread.mk "cc" None (Some "cc") (Some true) ];
    [ Thread.mk "" None None None ] ].

Definition workerClusters : gmap string (list string) :=
  list_to_map [("cc", ["cc"; "gone"; "bb"])].

Section MempoolBlocks.

(** [config.MEMPOOL.BLOCK_WEIGHT_UNITS], [config.MEMPOOL.MEMPOOL_BLOCKS_AMOUNT] *)
Variable BLOCK_WEIGHT_UNITS : Z.
Variable MEMPOOL_BLOCKS_AMOUNT : Z.

(** The collaborators of [Common], whose code is outside the sources. *)
Variable stripTransaction : Tx.t → Stripped.t.
Variable calcEffectiveFeeStatistics : list Tx.t → number * list number.
Variable setRelativesAndGetCpfpInfo : ref → mempool → heap → heap.

(** *** [dataToMempoolBlocks] (lines 351-373) *)

(** [config.MEMPOOL.BLOCK_WEIGHT_UNITS * 1.2] *)
Definition relaxedCap : number := (num BLOCK_WEIGHT_UNITS * Q2Qc (12 # 10))%Qc.

(** The body of [transactions.forEach], on
    [(totalSize, totalWeight, fitTransactions)]. *)
Definition fitStep (h : heap) (acc : Z * Z * list ref) (r : ref)
    : Z * Z * list ref :=
  let totalSize := acc.1.1 + Tx.size (h r) in
  let totalWeight := acc.1.2 + Tx.weight (h r) in
  if decide (num (totalWeight + Tx.weight (h r)) ≤ relaxedCap)%Qc
  then (totalSize, totalWeight, acc.2 ++ [r])
  else (totalSize, totalWeight, acc.2).

Definition fitLoop (h : heap) (transactions : list ref) : Z * Z * list ref :=
  foldl (fitStep h) (0, 0, []) transactions.

Definition fitTransactions (h : heap) (transactions : list ref) : list ref :=
  (fitLoop h transactions).2.

Definition dataToMempoolBlocks (h : heap) (transactions : list ref) : Block.t :=
  let totalSize := (fitLoop h transactions).1.1 in
  let totalWeight := (fitLoop h transactions).1.2 in
  let feeStats := calcEffectiveFeeStatistics (map h transactions) in
  {| Block.blockSize := totalSize;
     Block.blockVSize := (num totalWeight / num 4)%Qc;
     Block.nTx := length transactions;
     Block.totalFees := foldl (λ acc cur, acc + Tx.fee (h cur)) 0 transactions;
     Block.medianFee := feeStats.1;
     Block.feeRange := feeStats.2;
     Block.transactionIds := map (λ r, Tx.txid (h r)) transactions;
     Block.transactions :=
       map (λ r, stripTransaction (h r)) (fitTransactions h transactions) |}.

(** *** [calculateMempoolBlocks] (lines 102-134) *)

(** The variables of the loop, with the store the loop writes
    [tx.position] into.  [packed] is bookkeeping of the embedding: the
    array handed to [dataToMempoolBlocks] at each [mempoolBlocks.push]. *)
Record PackState := mkPack {
  mempoolBlocks : list Block.t;
  blockWeight : Z;
  blockVsize : number;
  transactions : list ref;
  store : heap;
  packed : list (list ref)
}.

Definition packStep (st : PackState) (r : ref) : PackState :=
  let h := store st in
  if bool_decide (blockWeight st + Tx.weight (h r) ≤ BLOCK_WEIGHT_UNITS)
     || bool_decide (Z.of_nat (length (mempoolBlocks st)) = MEMPOOL_BLOCKS_AMOUNT - 1)
  then
    let pos := Position.mk (length (mempoolBlocks st))
                 (blockVsize st + Tx.vsize (h r) / num 2)%Qc in
    let h := assign r (Tx.set_position (Some pos)) h in
    mkPack (mempoolBlocks st)
           (blockWeight st + Tx.weight (h r))
           (blockVsize st + Tx.vsize (h r))%Qc
           (transactions st ++ [r])
           h
           (packed st)
  else
    let blocks := mempoolBlocks st ++ [dataToMempoolBlocks h (transactions st)] in
    let blockVsize := 0%Qc in
    let pos := Position.mk (length blocks) (blockVsize + Tx.vsize (h r) / num 2)%Qc in
    let h := assign r (Tx.set_position (Some pos)) h in
    mkPack blocks
           (Tx.weight (h r))
           (blockVsize + Tx.vsize (h r))%Qc
           [r]
           h
           (packed st ++ [transactions st]).

Definition packLoop (h : heap) (transactionsSorted : list ref) : PackState :=
  foldl packStep (mkPack [] 0 0%Qc [] h []) transactionsSorted.

(** The returned blocks, with the store after the call. *)
Definition calculateMempoolBlocks (h : heap) (transactionsSorted : list ref)
    : list Block.t * heap :=
  let st := packLoop h transactionsSorted in
  match transactions st with
  | [] => (mempoolBlocks st, store st)
  | _ :: _ =>
      (mempoolBlocks st ++ [dataToMempoolBlocks (store st) (transactions st)],
       store st)
  end.

(** The arrays the returned blocks were built from, block by block. *)
Definition packedBlocks (h : heap) (transactionsSorted : list ref)
    : list (list ref) :=
  let st := packLoop h transactionsSorted in
  match transactions st with
  | [] => packed st
  | _ :: _ => packed st ++ [transactions st]
  end.

(** The rule of section 4.2 for the client-facing subset: the
    transaction at position [i] is retained when the sum of the weights
    of positions [0..i], plus its own weight once more, is within the
    relaxed cap. *)
Definition retainedAt (h : heap) (txs : list ref) (i : nat) (r : ref) : Prop :=
  (num (sumWeights h (take (S i) txs) + Tx.weight (h r)) ≤ relaxedCap)%Qc.

#[global] Instance retainedAt_dec h txs i r : Decision (retainedAt h txs i r).
Proof. unfold retainedAt. apply _. Defined.

Definition retainedSpec (h : heap) (txs : list ref) : list ref :=
  omap (λ ir : nat * ref,
          if decide (retainedAt h txs ir.1 ir.2) then Some ir.2 else None)
       (imap pair txs).

(** *** [updateMempoolBlocks] (lines 36-100) *)

(** The first [forEach]: clear bestDescendants and ancestors. *)
Definition clearStep (h : heap) (r : ref) : heap :=
  let h := assign r (Tx.set_bestDescendant None) h in
  let h := assign r (Tx.set_ancestors (Some [])) h in
  let h := assign r (Tx.set_cpfpChecked (Some false)) h in
  if decide (Tx.effectiveFeePerVsize (h r) = 0%Qc)
  then assign r (Tx.set_effectiveFeePerVsize (Tx.feePerVsize (h r))) h
  else h.

(** The comparator of the first sort. *)
Definition compareFee (h : heap) (a b : ref) : number :=
  if decide (Tx.feePerVsize (h a) = Tx.feePerVsize (h b))
  then (if String.ltb (Tx.txid (h a)) (Tx.txid (h b)) then num (-1) else num 1)
  else (Tx.feePerVsize (h b) - Tx.feePerVsize (h a))%Qc.

(** The comparator of the final sort. *)
Definition compareEffectiveFee (h : heap) (a b : ref) : number :=
  if decide (Tx.effectiveFeePerVsize (h a) = Tx.effectiveFeePerVsize (h b))
  then (if String.ltb (Tx.txid (h a)) (Tx.txid (h b)) then num (-1) else num 1)
  else (Tx.effectiveFeePerVsize (h b) - Tx.effectiveFeePerVsize (h a))%Qc.

(** The resolver loop on [(sizes, store, resolved)]; [resolved] logs the
    transactions handed to [Common.setRelativesAndGetCpfpInfo]. *)
Definition resolveStep (memPool : mempool) (acc : Z * heap * list ref) (r : ref)
    : Z * heap * list ref :=
  let sizes := acc.1.1 + Tx.weight (acc.1.2 r) in
  if decide (sizes > RESOLVE_WEIGHT_CAP)
  then (sizes, acc.1.2, acc.2)
  else (sizes, setRelativesAndGetCpfpInfo r memPool acc.1.2, acc.2 ++ [r]).

(** The array after the first sort. *)
Definition firstSorted (memPool : mempool) (h : heap) : list ref :=
  let memPoolArray := map snd memPool in
  sort (compareFee (foldl clearStep h memPoolArray)) memPoolArray.

Definition resolveLoop (memPool : mempool) (h : heap) : Z * heap * list ref :=
  let memPoolArray := map snd memPool in
  let cleared := foldl clearStep h memPoolArray in
  foldl (resolveStep memPool) (0, cleared, []) (firstSorted memPool h).

(** The transactions handed to the resolver, in call order. *)
Definition resolved (memPool : mempool) (h : heap) : list ref :=
  (resolveLoop memPool h).2.

(** The array after the final sort. *)
Definition finalSorted (memPool : mempool) (h : heap) : list ref :=
  let h1 := (resolveLoop memPool h).1.2 in
  sort (compareEffectiveFee h1) (firstSorted memPool h).

(** Result of a call: returned blocks, fields of [this], store. *)
Definition updateMempoolBlocks (memPool : mempool) (saveResults : bool)
    (this : This.t) (h : heap) : list Block.t * This.t * heap :=
  let h1 := (resolveLoop memPool h).1.2 in
  let '(blocks, h2) := calculateMempoolBlocks h1 (finalSorted memPool h) in
  if saveResults then
    let deltas := calculateMempoolDeltas (This.mempoolBlocks this) blocks in
    (blocks, This.mk blocks deltas, h2)
  else (blocks, this, h2).

(** *** [processBlockTemplates] (lines 283-349) *)

(** [cluster.forEach] on [(ancestors, descendants, matched)]. *)
Definition clusterStep (memPool : mempool) (h : heap) (pivot : string)
    (acc : list Ancestor.t * list Ancestor.t * bool) (txid : string)
    : list Ancestor.t * list Ancestor.t * bool :=
  match (if truthy txid then mempoolGet memPool txid else None) with
  | None => acc
  | Some p =>
      if decide (txid = pivot) then (acc.1.1, acc.1.2, true)
      else
        let relative := Ancestor.mk txid (Tx.fee (h p)) (Tx.weight (h p)) in
        if acc.2 then (acc.1.1, acc.1.2 ++ [relative], acc.2)
        else (acc.1.1 ++ [relative], acc.1.2, acc.2)
  end.

(** [block.forEach] on [(runningVsize, store)]. *)
Definition enrichStep (memPool : mempool) (clusters : gmap string (list string))
    (blockIndex : nat) (acc : number * heap) (tx : Thread.t) : number * heap :=
  match (if truthy (Thread.txid tx) then mempoolGet memPool (Thread.txid tx) else None) with
  | None => acc
  | Some r =>
      let h := acc.2 in
      let pos := Position.mk blockIndex (acc.1 + Tx.vsize (h r) / num 2)%Qc in
      let h := assign r (Tx.set_position (Some pos)) h in
      let runningVsize := (acc.1 + Tx.vsize (h r))%Qc in
      let h := match Thread.effectiveFeePerVsize tx with
               | Some e => assign r (Tx.set_effectiveFeePerVsize e) h
               | None => h
               end in
      let h := match (root ← Thread.cpfpRoot tx;
                      if truthy root then clusters !! root else None) with
               | Some cluster =>
                   let res := foldl (clusterStep memPool h (Thread.txid tx))
                                    ([], [], false) cluster in
                   let h := assign r (Tx.set_ancestors (Some res.1.1)) h in
                   let h := assign r (Tx.set_descendants (Some res.1.2)) h in
                   assign r (Tx.set_bestDescendant None) h
               | None => h
               end in
      (runningVsize, assign r (Tx.set_cpfpChecked (Thread.cpfpChecked tx)) h)
  end.

(** [blocks.forEach((block, blockIndex) => ...)] *)
Fixpoint enrichBlocks (memPool : mempool) (clusters : gmap string (list string))
    (blockIndex : nat) (blocks : list (list Thread.t)) (h : heap) : heap :=
  match blocks with
  | [] => h
  | block :: rest =>
      let h := (foldl (enrichStep memPool clusters blockIndex) (0%Qc, h) block).2 in
      enrichBlocks memPool clusters (S blockIndex) rest h
  end.

Definition processBlockTemplates (memPool : mempool)
    (blocks : list (list Thread.t)) (clusters : gmap string (list string))
    (saveResults : bool) (this : This.t) (h : heap)
    : list Block.t * This.t * heap :=
  let h := enrichBlocks memPool clusters 0 blocks h in
  let mempoolBlocks :=
    map (λ transactions,
           dataToMempoolBlocks h
             (omap (λ tx, mempoolGet memPool (Thread.txid tx)) transactions))
        blocks in
  if saveResults then
    let deltas := calculateMempoolDeltas (This.mempoolBlocks this) mempoolBlocks in
    (mempoolBlocks, This.mk mempoolBlocks deltas, h)
  else (mempoolBlocks, this, h).

(** *** Read accessors (lines 15-34) *)

Definition getMempoolBlocks (this : This.t) : list Summary.t :=
  map (λ block,
         Summary.mk (Block.blockSize block) (Block.blockVSize block)
           (Block.nTx block) (Block.totalFees block) (Block.medianFee block)
           (Block.feeRange block))
      (This.mempoolBlocks this).

Definition getMempoolBlocksWithTransactions (this : This.t) : list Block.t :=
  This.mempoolBlocks this.

Definition getMempoolBlockDeltas (this : This.t) : list Delta.t :=
  This.mempoolBlockDeltas this.


(** What [processBlockTemplates] writes on the object a worker
    transaction [tx] stands for, at block [k] and running vsize [v]:
    [before] is the object when its turn comes, [after] the object once
    written; [h] supplies the fees and weights of the cluster members. *)
Definition enriched (memPool : mempool) (clusters : gmap string (list string))
    (h : heap) (k : nat) (v : number) (tx : Thread.t) (before after : Tx.t)
    : Prop :=
  Tx.position after = Some (Position.mk k (v + Tx.vsize before / num 2)%Qc) ∧
  Tx.effectiveFeePerVsize after =
    default (Tx.effectiveFeePerVsize before) (Thread.effectiveFeePerVsize tx) ∧
  Tx.cpfpChecked after = Thread.cpfpChecked tx ∧
  match (root ← Thread.cpfpRoot tx;
         if truthy root then clusters !! root else None) with
  | Some cluster =>
      let res := foldl (clusterStep memPool h (Thread.txid tx))
                       ([], [], false) cluster in
      Tx.ancestors after = Some res.1.1 ∧
      Tx.descendants after = Some res.1.2 ∧
      Tx.bestDescendant after = None
  | None =>
      Tx.ancestors after = Tx.ancestors before ∧
      Tx.descendants after = Tx.descendants before ∧
      Tx.bestDescendant after = Tx.bestDescendant before
  end.

(** The loop invariant that holds for every input: [l] is the part of the
    input consumed so far. *)
Record packInv (h : heap) (l : list ref) (st : PackState) : Prop := {
  inv_agree : agree h (store st);
  inv_blocks : Forall2 (blockOf h) (mempoolBlocks st) (packed st);
  inv_concat : concat (packed st) ++ transactions st = l;
  inv_weight : blockWeight st = sumWeights h (transactions st);
  inv_vsize : blockVsize st = sumVsizes h (transactions st);
  inv_empty : transactions st = [] → l = []
}.

(** With distinct objects, every transaction consumed so far carries the
    position of its place in the arrays built by the loop. *)
Definition positioned (h h' : heap) (groups : list (list ref)) : Prop :=
  ∀ k g i r, groups !! k = Some g → g !! i = Some r →
    Tx.position (h' r) =
    Some (Position.mk k (sumVsizes h (take i g) + Tx.vsize (h r) / num 2)%Qc).

(** ** Properties of the delta computer *)

Lemma mkPrevIds_snoc txs tx :
  mkPrevIds (txs ++ [tx]) = <[Stripped.txid tx := tx]> (mkPrevIds txs).
Proof. unfold mkPrevIds. by rewrite foldl_app. Qed.

Lemma mkNewIds_snoc txs tx :
  mkNewIds (txs ++ [tx]) = <[Stripped.txid tx := true]> (mkNewIds txs).
Proof. unfold mkNewIds. by rewrite foldl_app. Qed.

Lemma mkNewIds_lookup txs k :
  mkNewIds txs !! k = if decide (k ∈ txids txs) then Some true else None.
Proof.
  induction txs as [|tx txs IH] using rev_ind.
  - by rewrite decide_False by apply not_elem_of_nil.
  - rewrite mkNewIds_snoc. unfold txids in *. rewrite map_app. simpl.
    destruct (decide (Stripped.txid tx = k)) as [Heq|Hne]; [subst k|].
    + rewrite lookup_insert_eq. rewrite decide_True; [done|].
      apply elem_of_app. right. by apply list_elem_of_singleton.
    + rewrite lookup_insert_ne by done. rewrite IH.
      destruct (decide (k ∈ map Stripped.txid txs)) as [Hin|Hnin].
      * rewrite decide_True; [done|]. apply elem_of_app. by left.
      * rewrite decide_False; [done|].
        intros [?|Hk%list_elem_of_singleton]%elem_of_app; [done|].
        by subst.
Qed.

Lemma mkPrevIds_Some txs k p :
  mkPrevIds txs !! k = Some p → p ∈ txs ∧ Stripped.txid p = k.
Proof.
  induction txs as [|tx txs IH] using rev_ind.
  - cbn. by rewrite lookup_empty.
  - rewrite mkPrevIds_snoc.
    destruct (decide (Stripped.txid tx = k)) as [Heq|Hne]; [subst k|].
    + rewrite lookup_insert_eq. intros [= ->]. split; [|done].
      apply elem_of_app. right. by apply list_elem_of_singleton.
    + rewrite lookup_insert_ne by done. intros [? ?]%IH. split; [|done].
      apply elem_of_app. by left.
Qed.

Lemma mkPrevIds_None txs k :
  mkPrevIds txs !! k = None ↔ k ∉ txids txs.
Proof.
  induction txs as [|tx txs IH] using rev_ind.
  - split; [intros _; apply not_elem_of_nil | done].
  - rewrite mkPrevIds_snoc. unfold txids in *. rewrite map_app. simpl.
    rewrite not_elem_of_app, list_elem_of_singleton.
    destruct (decide (Stripped.txid tx = k)) as [Heq|Hne]; [subst k|].
    + rewrite lookup_insert_eq. split; [done|]. intros [_ Hc]. by destruct Hc.
    + rewrite lookup_insert_ne by done. rewrite IH. split; [|by intros [? _]].
      intros Hk. split; [done|]. by intros ->.
Qed.

Lemma mkPrevIds_NoDup txs p :
  NoDup (txids txs) → p ∈ txs → mkPrevIds txs !! Stripped.txid p = Some p.
Proof.
  induction txs as [|tx txs IH] using rev_ind.
  - intros _ H. by apply elem_of_nil in H.
  - unfold txids in *. rewrite map_app. simpl. intros [Hnd [Hdisj _]]%NoDup_app.
    rewrite mkPrevIds_snoc. intros [Hin| ->%list_elem_of_singleton]%elem_of_app.
    + rewrite lookup_insert_ne; [by apply IH|].
      intros Heq. apply (Hdisj (Stripped.txid p)).
      * by apply list_elem_of_fmap_2.
      * rewrite Heq. by apply list_elem_of_singleton.
    + by rewrite lookup_insert_eq.
Qed.

Lemma removed_filter newIds txs :
  foldl (removedStep newIds) [] txs =
  filter (λ k, newIds !! k ≠ Some true) (txids txs).
Proof.
  induction txs as [|tx txs IH] using rev_ind; [done|].
  rewrite foldl_app. simpl. unfold txids in *.
  rewrite map_app, filter_app, <- IH. simpl.
  unfold removedStep at 1.
  destruct (newIds !! Stripped.txid tx) as [[]|] eqn:E.
  - rewrite filter_cons_False by (by rewrite E; intros H; apply H).
    by rewrite filter_nil, app_nil_r.
  - rewrite filter_cons_True by (by rewrite E). done.
  - rewrite filter_cons_True by (by rewrite E). done.
Qed.

Lemma added_filter prevIds txs :
  (foldl (addedStep prevIds) ([], []) txs).1 =
  filter (λ tx, prevIds !! Stripped.txid tx = None) txs.
Proof.
  induction txs as [|tx txs IH] using rev_ind; [done|].
  rewrite foldl_app, filter_app, <- IH. simpl. unfold addedStep at 1.
  destruct (prevIds !! Stripped.txid tx) as [p|] eqn:E.
  - rewrite filter_cons_False by (by rewrite E).
    rewrite filter_nil, app_nil_r. by case_decide.
  - rewrite filter_cons_True by done. done.
Qed.

Lemma changed_omap prevIds txs :
  (foldl (addedStep prevIds) ([], []) txs).2 = omap (changeOf prevIds) txs.
Proof.
  induction txs as [|tx txs IH] using rev_ind; [done|].
  rewrite foldl_app, omap_app, <- IH. simpl. unfold addedStep at 1, changeOf.
  destruct (prevIds !! Stripped.txid tx) as [p|] eqn:E; simpl.
  - case_decide; simpl; [by rewrite app_nil_r | done].
  - by rewrite app_nil_r.
Qed.

Lemma calculateMempoolDeltas_length prevBlocks newBlocks :
  length (calculateMempoolDeltas prevBlocks newBlocks) =
  Nat.max (length prevBlocks) (length newBlocks).
Proof. unfold calculateMempoolDeltas. rewrite length_map, length_seq. lia. Qed.

Lemma calculateMempoolDeltas_lookup prevBlocks newBlocks i :
  (i < Nat.max (length prevBlocks) (length newBlocks))%nat →
  calculateMempoolDeltas prevBlocks newBlocks !! i =
  Some (deltaAt (prevBlocks !! i) (newBlocks !! i)).
Proof.
  intros Hi. unfold calculateMempoolDeltas.
  rewrite list_lookup_fmap, lookup_seq_lt by lia. done.
Qed.

Lemma deltaAt_both p n :
  deltaAt (Some p) (Some n) =
  Delta.mk
    (filter (λ tx, Stripped.txid tx ∉ txids (Block.transactions p))
            (Block.transactions n))
    (filter (λ k, k ∉ txids (Block.transactions n))
            (txids (Block.transactions p)))
    (omap (changeOf (mkPrevIds (Block.transactions p))) (Block.transactions n)).
Proof.
  unfold deltaAt. rewrite added_filter, removed_filter, changed_omap. f_equal.
  - apply list_filter_iff. intros tx. apply mkPrevIds_None.
  - apply list_filter_iff. intros k. rewrite mkNewIds_lookup. by case_decide.
Qed.

(** C5. [calculateMempoolDeltas] returns [max(|prev|, |new|)] deltas, and at
  an index where both blocks exist: [removed] lists the txids of the
  previous block that are not in the new one, [added] lists the records of
  the new block whose txid is not in the previous one, and [changed] holds
  [{txid, rate}] exactly for the records of the new block whose txid is in
  the previous block with a different rate (an absent rate differs from
  any value).  Each txid occurs once in a previous block. *)
Theorem calculateMempoolDeltas_spec (prevBlocks newBlocks : list Block.t) :
  (∀ p, p ∈ prevBlocks → NoDup (txids (Block.transactions p))) →
  length (calculateMempoolDeltas prevBlocks newBlocks) =
    Nat.max (length prevBlocks) (length newBlocks) ∧
  ∀ i p n, prevBlocks !! i = Some p → newBlocks !! i = Some n →
    ∃ d, calculateMempoolDeltas prevBlocks newBlocks !! i = Some d ∧
      Delta.removed d =
        filter (λ k, k ∉ txids (Block.transactions n))
               (txids (Block.transactions p)) ∧
      Delta.added d =
        filter (λ tx, Stripped.txid tx ∉ txids (Block.transactions p))
               (Block.transactions n) ∧
      (∀ c, c ∈ Delta.changed d ↔
         ∃ s q, s ∈ Block.transactions n ∧ q ∈ Block.transactions p ∧
                Stripped.txid s = Stripped.txid q ∧
                Stripped.rate s ≠ Stripped.rate q ∧
                c = Change.mk (Stripped.txid s) (Stripped.rate s)).
Proof.
  intros Hnd. split; [apply calculateMempoolDeltas_length|].
  intros i p n Hp Hn. eexists. split.
  { rewrite calculateMempoolDeltas_lookup, Hp, Hn; [done|].
    apply lookup_lt_Some in Hp. lia. }
  rewrite deltaAt_both. simpl. split; [done|]. split; [done|].
  intros c. rewrite list_elem_of_omap. unfold changeOf. split.
  - intros (s & Hs & Hc).
    destruct (mkPrevIds (Block.transactions p) !! Stripped.txid s) as [q|] eqn:E;
      simpl in Hc; [|done].
    apply mkPrevIds_Some in E as [Hq Heq].
    case_decide; [done|]. injection Hc as <-. by exists s, q.
  - intros (s & q & Hs & Hq & Heq & Hrate & ->). exists s. split; [done|].
    rewrite Heq, (mkPrevIds_NoDup _ q); simpl.
    + by rewrite decide_False.
    + apply Hnd. by eapply list_elem_of_lookup_2.
    + done.
Qed.

(** C6. Delta soundness: at an index where both blocks exist, the txids of
  the previous block, minus [removed], plus the txids of [added], are the
  txids of the new block, as sets. *)
Theorem delta_soundness (prevBlocks newBlocks : list Block.t) i p n :
  prevBlocks !! i = Some p → newBlocks !! i = Some n →
  ∃ d, calculateMempoolDeltas prevBlocks newBlocks !! i = Some d ∧
    (list_to_set (txids (Block.transactions p)) ∖ list_to_set (Delta.removed d))
      ∪ list_to_set (txids (Delta.added d))
    =@{gset string} list_to_set (txids (Block.transactions n)).
Proof.
  intros Hp Hn. eexists. split.
  { rewrite calculateMempoolDeltas_lookup, Hp, Hn; [done|].
    apply lookup_lt_Some in Hp. lia. }
  rewrite deltaAt_both. simpl. apply set_eq. intros k.
  rewrite elem_of_union, elem_of_difference, !elem_of_list_to_set.
  rewrite list_elem_of_filter. unfold txids at 4. rewrite list_elem_of_fmap.
  setoid_rewrite list_elem_of_filter.
  split.
  - intros [[Hkp Hkn]|(s & -> & _ & Hs)].
    + destruct (decide (k ∈ txids (Block.transactions n))); [done|].
      exfalso. by apply Hkn.
    + by apply list_elem_of_fmap_2.
  - intros Hk. destruct (decide (k ∈ txids (Block.transactions p))) as [Hkp|Hkp].
    + left. split; [done|]. intros [Hc _]. by apply Hc.
    + right. apply list_elem_of_fmap in Hk as (s & -> & Hs). by exists s.
Qed.

(** ** Properties of [dataToMempoolBlocks] *)

Lemma sumWeights_app h l k :
  sumWeights h (l ++ k) = sumWeights h l + sumWeights h k.
Proof. induction l as [|r l IH]; simpl; lia. Qed.

Lemma sumVsizes_app h l k :
  sumVsizes h (l ++ k) = (sumVsizes h l + sumVsizes h k)%Qc.
Proof. induction l as [|r l IH]; simpl; [|rewrite IH]; ring. Qed.

Lemma sumWeights_nonneg h l :
  (∀ r, r ∈ l → 0 ≤ Tx.weight (h r)) → 0 ≤ sumWeights h l.
Proof.
  induction l as [|r l IH]; simpl; intros H; [lia|].
  assert (0 ≤ Tx.weight (h r)) by (apply H; left).
  assert (0 ≤ sumWeights h l) by (apply IH; intros; apply H; by right).
  lia.
Qed.

(** Comparisons against [BLOCK_WEIGHT_UNITS * 1.2] and
    [BLOCK_WEIGHT_UNITS * 0.6], in integers. *)
Lemma le_relaxedCap (w : Z) :
  (num w ≤ relaxedCap)%Qc ↔ 5 * w ≤ 6 * BLOCK_WEIGHT_UNITS.
Proof.
  unfold relaxedCap, num, Qcle. simpl. rewrite Qred_correct.
  unfold Qle. simpl. lia.
Qed.

Lemma gt_sixTenths (w : Z) :
  (num BLOCK_WEIGHT_UNITS * Q2Qc (6 # 10) < num w)%Qc ↔
  3 * BLOCK_WEIGHT_UNITS < 5 * w.
Proof.
  unfold num, Qclt. simpl. rewrite Qred_correct.
  unfold Qlt. simpl. lia.
Qed.

Lemma fitLoop_snoc h l r :
  fitLoop h (l ++ [r]) = fitStep h (fitLoop h l) r.
Proof. unfold fitLoop. by rewrite foldl_app. Qed.

Lemma fitStep_weight h acc r :
  (fitStep h acc r).1.2 = acc.1.2 + Tx.weight (h r).
Proof. unfold fitStep. by case_decide. Qed.

Lemma fitStep_size h acc r :
  (fitStep h acc r).1.1 = acc.1.1 + Tx.size (h r).
Proof. unfold fitStep. by case_decide. Qed.

Lemma fitLoop_weight h l : (fitLoop h l).1.2 = sumWeights h l.
Proof.
  induction l as [|r l IH] using rev_ind; [done|].
  rewrite fitLoop_snoc, fitStep_weight, IH, sumWeights_app. simpl. lia.
Qed.

Lemma omap_ext_elem {A B} (f g : A → option B) (l : list A) :
  (∀ x, x ∈ l → f x = g x) → omap f l = omap g l.
Proof.
  induction l as [|x l IH]; intros H; [done|]. cbn.
  rewrite (H x) by left. rewrite IH; [done|].
  intros y Hy. apply H. by right.
Qed.

Lemma retainedSpec_snoc h l r :
  retainedSpec h (l ++ [r]) =
  retainedSpec h l ++
    (if decide (retainedAt h (l ++ [r]) (length l) r) then [r] else []).
Proof.
  unfold retainedSpec. rewrite imap_app, omap_app. simpl.
  rewrite Nat.add_0_r. f_equal; [|by case_decide].
  apply omap_ext_elem. intros [i x] (j & y & [= -> ->] & Hj)%elem_of_lookup_imap.
  cbn [fst snd]. apply lookup_lt_Some in Hj.
  assert (take (S j) (l ++ [r]) = take (S j) l) as Heq
    by (apply take_app_le; lia).
  repeat case_decide; unfold retainedAt in *; rewrite Heq in *; done.
Qed.

Lemma fitTransactions_retainedSpec h txs :
  fitTransactions h txs = retainedSpec h txs.
Proof.
  unfold fitTransactions.
  induction txs as [|r l IH] using rev_ind; [done|].
  rewrite fitLoop_snoc, retainedSpec_snoc, <- IH.
  assert (sumWeights h (take (S (length l)) (l ++ [r])) =
          sumWeights h l + Tx.weight (h r)) as Hw.
  { rewrite firstn_all2 by (rewrite length_app; simpl; lia).
    rewrite sumWeights_app. simpl. lia. }
  unfold fitStep. rewrite fitLoop_weight.
  repeat case_decide; unfold retainedAt in *; rewrite Hw in *; simpl;
    [done|done|done|by rewrite app_nil_r].
Qed.

(** C3. In [dataToMempoolBlocks] the transaction at position [i] of the
  input is included in the client-facing [transactions] if and only if
  [W_i + weight_i ≤ 1.2 × BLOCK_WEIGHT_UNITS], where [W_i] is the sum of
  the weights of positions [0] to [i] inclusive: [transactions] holds the
  stripped forms of exactly these positions, in packing order. *)
Theorem dataToMempoolBlocks_transactions (h : heap) (txs : list ref) :
  Block.transactions (dataToMempoolBlocks h txs) =
    map (λ r, stripTransaction (h r))
      (omap (λ ir : nat * ref,
               if decide (num (sumWeights h (take (S ir.1) txs)
                               + Tx.weight (h ir.2))
                          ≤ num BLOCK_WEIGHT_UNITS * Q2Qc (12 # 10))%Qc
               then Some ir.2 else None)
            (imap pair txs)).
Proof.
  unfold dataToMempoolBlocks. simpl. rewrite fitTransactions_retainedSpec.
  reflexivity.
Qed.

Lemma fitTransactions_elem h txs r :
  r ∈ fitTransactions h txs ↔ ∃ i, txs !! i = Some r ∧ retainedAt h txs i r.
Proof.
  rewrite fitTransactions_retainedSpec. unfold retainedSpec.
  rewrite list_elem_of_omap. split.
  - intros ([i x] & (j & y & [= -> ->] & Hj)%elem_of_lookup_imap & Hx).
    cbn [fst snd] in Hx. case_decide; [|done]. injection Hx as ->. by exists j.
  - intros (i & Hi & Hr). exists (i, r). split.
    + by apply elem_of_lookup_imap_2.
    + cbn [fst snd]. by rewrite decide_True.
Qed.

Lemma dataToMempoolBlocks_weight h txs :
  Block.blockVSize (dataToMempoolBlocks h txs) =
  (num (sumWeights h txs) / num 4)%Qc.
Proof. unfold dataToMempoolBlocks. simpl. by rewrite fitLoop_weight. Qed.

(** C10. [dataToMempoolBlocks] strips the transactions it retained, and,
    with weights that are not negative, a transaction heavier than
    [0.6 × BLOCK_WEIGHT_UNITS] is never retained, because its weight counts
    twice in the test; a block built from one such transaction alone has
    [nTx = 1], its txid in [transactionIds], and no [transactions]. *)
Theorem heavy_transaction_not_retained (h : heap) (txs : list ref) :
  (∀ r, r ∈ txs → 0 ≤ Tx.weight (h r)) →
  Block.transactions (dataToMempoolBlocks h txs) =
    map (λ r, stripTransaction (h r)) (fitTransactions h txs) ∧
  (∀ r, r ∈ txs →
     (num BLOCK_WEIGHT_UNITS * Q2Qc (6 # 10) < num (Tx.weight (h r)))%Qc →
     r ∉ fitTransactions h txs) ∧
  (∀ r, txs = [r] →
     (num BLOCK_WEIGHT_UNITS * Q2Qc (6 # 10) < num (Tx.weight (h r)))%Qc →
     Block.nTx (dataToMempoolBlocks h txs) = 1%nat ∧
     Block.transactionIds (dataToMempoolBlocks h txs) = [Tx.txid (h r)] ∧
     Block.transactions (dataToMempoolBlocks h txs) = []).
Proof.
  intros Hpos.
  assert (∀ r, r ∈ txs →
     (num BLOCK_WEIGHT_UNITS * Q2Qc (6 # 10) < num (Tx.weight (h r)))%Qc →
     r ∉ fitTransactions h txs) as Hheavy.
  { intros r Hr Hw%gt_sixTenths (i & Hi & Hret)%fitTransactions_elem.
    unfold retainedAt in Hret. apply le_relaxedCap in Hret.
    rewrite (take_S_r _ _ _ Hi), sumWeights_app in Hret. simpl in Hret.
    assert (0 ≤ sumWeights h (take i txs)).
    { apply sumWeights_nonneg. intros x Hx. apply Hpos.
      by eapply subseteq_take. }
    lia. }
  split; [done|]. split; [done|].
  intros r -> Hw. split; [done|]. split; [done|].
  unfold dataToMempoolBlocks. simpl.
  destruct (fitTransactions h [r]) as [|x l] eqn:E; [done|].
  exfalso. assert (x ∈ fitTransactions h [r]) as Hx by (rewrite E; left).
  assert (x = r) as ->.
  { apply fitTransactions_elem in Hx as (i & Hi & _).
    apply list_elem_of_lookup_2 in Hi. by apply list_elem_of_singleton in Hi. }
  apply (Hheavy r); [left|done|left].
Qed.

(** ** Properties of the store *)

Lemma assign_eq r f (h : heap) : assign r f h r = f (h r).
Proof. unfold assign. apply fn_lookup_insert. Qed.

Lemma assign_ne r r' f (h : heap) : r ≠ r' → assign r f h r' = h r'.
Proof. intros. unfold assign. by apply fn_lookup_insert_ne. Qed.

Lemma agree_refl h : agree h h.
Proof. done. Qed.

Lemma agree_trans h1 h2 h3 : agree h1 h2 → agree h2 h3 → agree h1 h3.
Proof. intros H12 H23 r. by rewrite H12. Qed.

Lemma agree_assign_position r p h : agree h (assign r (Tx.set_position p) h).
Proof.
  intros r'. destruct (decide (r = r')) as [->|Hne].
  - by rewrite assign_eq.
  - by rewrite assign_ne.
Qed.

Lemma agree_weight h h' r : agree h h' → Tx.weight (h r) = Tx.weight (h' r).
Proof. intros H. apply (f_equal Tx.weight (H r)). Qed.

Lemma agree_vsize h h' r : agree h h' → Tx.vsize (h r) = Tx.vsize (h' r).
Proof. intros H. apply (f_equal Tx.vsize (H r)). Qed.

Lemma agree_txid h h' r : agree h h' → Tx.txid (h r) = Tx.txid (h' r).
Proof. intros H. apply (f_equal Tx.txid (H r)). Qed.

Lemma agree_effectiveFeePerVsize h h' r :
  agree h h' → Tx.effectiveFeePerVsize (h r) = Tx.effectiveFeePerVsize (h' r).
Proof. intros H. apply (f_equal Tx.effectiveFeePerVsize (H r)). Qed.

Lemma agree_feePerVsize h h' r :
  agree h h' → Tx.feePerVsize (h r) = Tx.feePerVsize (h' r).
Proof. intros H. apply (f_equal Tx.feePerVsize (H r)). Qed.

Lemma agree_sumWeights h h' l : agree h h' → sumWeights h l = sumWeights h' l.
Proof.
  intros H. induction l as [|r l IH]; simpl; [done|].
  by rewrite IH, (agree_weight h h' r).
Qed.

Lemma agree_sumVsizes h h' l : agree h h' → sumVsizes h l = sumVsizes h' l.
Proof.
  intros H. induction l as [|r l IH]; simpl; [done|].
  by rewrite IH, (agree_vsize h h' r).
Qed.

(** ** Properties of [calculateMempoolBlocks] *)

Lemma packLoop_snoc h l r : packLoop h (l ++ [r]) = packStep (packLoop h l) r.
Proof. unfold packLoop. by rewrite foldl_app. Qed.

Lemma blockOf_dataToMempoolBlocks h h' g :
  agree h h' → blockOf h (dataToMempoolBlocks h' g) g.
Proof.
  intros H. unfold blockOf, dataToMempoolBlocks. simpl.
  rewrite fitLoop_weight, (agree_sumWeights h h') by done.
  split; [|done]. apply map_ext. intros r. symmetry. by apply agree_txid.
Qed.

Lemma packInv_init h : packInv h [] (mkPack [] 0 0%Qc [] h []).
Proof. by split. Qed.

Lemma packInv_step h l st r :
  packInv h l st → packInv h (l ++ [r]) (packStep st r).
Proof.
  intros [Ha Hb Hc Hw Hv He]. unfold packStep.
  destruct (_ || _); split; simpl.
  - eapply agree_trans; [done|]. apply agree_assign_position.
  - done.
  - by rewrite app_assoc, Hc.
  - rewrite assign_eq, sumWeights_app, Hw. simpl.
    rewrite (agree_weight _ _ r Ha). lia.
  - rewrite assign_eq, sumVsizes_app, Hv. simpl.
    rewrite (agree_vsize _ _ r Ha). ring.
  - intros H. by destruct (transactions st).
  - eapply agree_trans; [done|]. apply agree_assign_position.
  - apply Forall2_app; [done|]. constructor; [|done].
    by apply blockOf_dataToMempoolBlocks.
  - rewrite concat_app. simpl. by rewrite app_nil_r, Hc.
  - rewrite assign_eq. simpl. rewrite (agree_weight _ _ r Ha). lia.
  - rewrite assign_eq. simpl. rewrite (agree_vsize _ _ r Ha). ring.
  - done.
Qed.

Lemma packInv_packLoop h l : packInv h l (packLoop h l).
Proof.
  induction l as [|r l IH] using rev_ind; [apply packInv_init|].
  rewrite packLoop_snoc. by apply packInv_step.
Qed.

Lemma calculateMempoolBlocks_agree h txs :
  agree h (calculateMempoolBlocks h txs).2.
Proof.
  unfold calculateMempoolBlocks.
  destruct (transactions _); simpl; apply (inv_agree _ _ _ (packInv_packLoop h txs)).
Qed.

(** Every returned block is built from the array [packedBlocks] gives at
    its index, and these arrays split the input. *)
Lemma calculateMempoolBlocks_packed h txs :
  Forall2 (blockOf h) (calculateMempoolBlocks h txs).1 (packedBlocks h txs) ∧
  concat (packedBlocks h txs) = txs.
Proof.
  destruct (packInv_packLoop h txs) as [Ha Hb Hc Hw Hv He].
  unfold calculateMempoolBlocks, packedBlocks.
  destruct (transactions (packLoop h txs)) as [|r g] eqn:E; simpl.
  - split; [done|]. by rewrite app_nil_r in Hc.
  - split.
    + apply Forall2_app; [done|]. constructor; [|done].
      by apply blockOf_dataToMempoolBlocks.
    + rewrite concat_app. simpl. by rewrite app_nil_r.
Qed.

Lemma calculateMempoolBlocks_transactionIds h txs :
  concat (map Block.transactionIds (calculateMempoolBlocks h txs).1) =
  map (λ r, Tx.txid (h r)) txs.
Proof.
  destruct (calculateMempoolBlocks_packed h txs) as [HF Hc].
  rewrite <- Hc at 2. clear Hc.
  induction HF as [|b g bs gs [Hb _] _ IH]; [done|].
  simpl. by rewrite map_app, Hb, IH.
Qed.

(** The number of blocks pushed by the loop stays below the last
    permitted index. *)
Lemma packLoop_length h l :
  1 ≤ MEMPOOL_BLOCKS_AMOUNT →
  Z.of_nat (length (mempoolBlocks (packLoop h l))) ≤ MEMPOOL_BLOCKS_AMOUNT - 1.
Proof.
  intros HM. induction l as [|r l IH] using rev_ind; [simpl; lia|].
  rewrite packLoop_snoc. unfold packStep.
  destruct (bool_decide (_ ≤ _) || bool_decide (_ = _)) eqn:E; simpl; [done|].
  apply orb_false_iff in E as [_ E%bool_decide_eq_false].
  rewrite length_app. simpl. lia.
Qed.

(** C7. With [MEMPOOL_BLOCKS_AMOUNT ≥ 1], [calculateMempoolBlocks] returns
  at most [MEMPOOL_BLOCKS_AMOUNT] blocks. *)
Theorem calculateMempoolBlocks_length (h : heap) (txs : list ref) :
  1 ≤ MEMPOOL_BLOCKS_AMOUNT →
  Z.of_nat (length (calculateMempoolBlocks h txs).1) ≤ MEMPOOL_BLOCKS_AMOUNT.
Proof.
  intros HM. pose proof (packLoop_length h txs HM) as Hl.
  unfold calculateMempoolBlocks.
  destruct (transactions _); simpl; [lia|].
  rewrite length_app. simpl. lia.
Qed.

(** Every array pushed by the loop is within the block weight or holds a
    single transaction heavier than a block, and so does the current one
    unless it is the last permitted block. *)
Lemma packLoop_weights h l :
  0 ≤ BLOCK_WEIGHT_UNITS →
  Forall (λ g, sumWeights h g ≤ BLOCK_WEIGHT_UNITS ∨
               ∃ r, g = [r] ∧ BLOCK_WEIGHT_UNITS < Tx.weight (h r))
         (packed (packLoop h l)) ∧
  (Z.of_nat (length (mempoolBlocks (packLoop h l))) ≠ MEMPOOL_BLOCKS_AMOUNT - 1 →
   blockWeight (packLoop h l) ≤ BLOCK_WEIGHT_UNITS ∨
   ∃ r, transactions (packLoop h l) = [r] ∧
        BLOCK_WEIGHT_UNITS < Tx.weight (h r)).
Proof.
  intros Hpos. induction l as [|r l IH] using rev_ind.
  { split; [constructor|]. intros _. by left. }
  destruct IH as [IHp IHc].
  destruct (packInv_packLoop h l) as [Ha _ _ Hbw _ _].
  rewrite packLoop_snoc. unfold packStep.
  rewrite <- (agree_weight _ _ r Ha).
  destruct (bool_decide (_ ≤ _) || bool_decide (_ = _)) eqn:E; simpl.
  - split; [done|]. intros Hlen. left.
    apply orb_true_iff in E as [E%bool_decide_eq_true|E%bool_decide_eq_true];
      [|done].
    rewrite assign_eq. simpl. by rewrite <- (agree_weight _ _ r Ha).
  - apply orb_false_iff in E as [E1%bool_decide_eq_false E2%bool_decide_eq_false].
    split.
    + apply Forall_app. split; [done|]. constructor; [|done].
      destruct (IHc E2) as [Hle|Hone]; [left|by right].
      by rewrite <- Hbw.
    + intros _. rewrite assign_eq. simpl.
      rewrite <- (agree_weight _ _ r Ha).
      destruct (decide (Tx.weight (h r) ≤ BLOCK_WEIGHT_UNITS)) as [Hle|Hgt];
        [by left|].
      right. exists r. split; [done|lia].
Qed.

(** C2 (amended). For a non-negative [BLOCK_WEIGHT_UNITS] and every
  sequence of transactions given to [calculateMempoolBlocks], every
  returned block except possibly the last either has a total transaction
  weight of at most [BLOCK_WEIGHT_UNITS], or holds a single transaction
  that weighs more than [BLOCK_WEIGHT_UNITS]. *)
Theorem block_weight_bound (h : heap) (txs : list ref) :
  0 ≤ BLOCK_WEIGHT_UNITS →
  ∀ k b, (calculateMempoolBlocks h txs).1 !! k = Some b →
    (S k < length (calculateMempoolBlocks h txs).1)%nat →
    ∃ g, packedBlocks h txs !! k = Some g ∧
         Block.transactionIds b = map (λ r, Tx.txid (h r)) g ∧
         Block.blockVSize b = (num (sumWeights h g) / num 4)%Qc ∧
         (sumWeights h g ≤ BLOCK_WEIGHT_UNITS ∨
          ∃ r, g = [r] ∧ BLOCK_WEIGHT_UNITS < Tx.weight (h r)).
Proof.
  intros Hpos k b Hb Hk.
  destruct (calculateMempoolBlocks_packed h txs) as [HF _].
  destruct (Forall2_lookup_l _ _ _ _ _ HF Hb) as (g & Hg & Hbg & Hvs & _).
  exists g. split; [done|]. split; [done|]. split; [done|].
  rewrite (Forall2_length _ _ _ HF) in Hk.
  destruct (packLoop_weights h txs Hpos) as [Hp _].
  unfold packedBlocks in Hg, Hk.
  rewrite Forall_lookup in Hp.
  destruct (transactions (packLoop h txs)) as [|x cur].
  - exact (Hp k g Hg).
  - rewrite length_app in Hk. simpl in Hk.
    rewrite lookup_app_l in Hg by lia. exact (Hp k g Hg).
Qed.

Lemma packLoop_length_packed h l :
  length (mempoolBlocks (packLoop h l)) = length (packed (packLoop h l)).
Proof.
  eapply Forall2_length, inv_blocks, packInv_packLoop.
Qed.

Lemma elem_of_groups (groups : list (list ref)) k g i r :
  groups !! k = Some g → g !! i = Some r → r ∈ concat groups.
Proof.
  intros Hk Hi. apply list_elem_of_In, in_concat. exists g.
  split; apply list_elem_of_In; by eapply list_elem_of_lookup_2.
Qed.

Lemma packLoop_positioned h l :
  NoDup l →
  positioned h (store (packLoop h l))
    (packed (packLoop h l) ++ [transactions (packLoop h l)]).
Proof.
  induction l as [|x l IH] using rev_ind; intros Hnd.
  { intros k g i r Hk Hi. simpl in Hk.
    destruct k; simpl in Hk; [|done]. injection Hk as <-. done. }
  apply NoDup_app in Hnd as (Hnd & Hdisj & _).
  specialize (IH Hnd).
  assert (x ∉ l) as Hx.
  { intros Hin. apply (Hdisj x Hin). by apply list_elem_of_singleton. }
  pose proof (packLoop_length_packed h l) as Hlen.
  destruct (packInv_packLoop h l) as [Ha _ Hc _ Hv _].
  rewrite packLoop_snoc. unfold packStep.
  destruct (bool_decide (_ ≤ _) || bool_decide (_ = _)) eqn:E; simpl.
  - intros k g i r Hk Hi.
    destruct (decide (k < length (packed (packLoop h l)))%nat) as [Hlt|Hge].
    + rewrite lookup_app_l in Hk by done.
      assert (r ≠ x) as Hne.
      { intros ->. apply Hx. rewrite <- Hc. apply elem_of_app. left.
        by eapply elem_of_groups. }
      rewrite assign_ne by done.
      apply (IH k g i r); [|done]. by rewrite lookup_app_l.
    + assert (k = length (packed (packLoop h l))) as ->.
      { apply lookup_lt_Some in Hk. rewrite length_app in Hk. simpl in Hk. lia. }
      rewrite list_lookup_middle in Hk by done. injection Hk as <-.
      destruct (decide (i < length (transactions (packLoop h l)))%nat) as [Hi'|Hi'].
      * rewrite lookup_app_l in Hi by done.
        assert (r ≠ x) as Hne.
        { intros ->. apply Hx. rewrite <- Hc. apply elem_of_app. right.
          by eapply list_elem_of_lookup_2. }
        rewrite assign_ne by done. rewrite take_app_le by lia.
        apply (IH (length (packed (packLoop h l))) _ i r); [|done].
        by rewrite list_lookup_middle.
      * assert (i = length (transactions (packLoop h l))) as ->.
        { apply lookup_lt_Some in Hi. rewrite length_app in Hi. simpl in Hi. lia. }
        rewrite list_lookup_middle in Hi by done. injection Hi as <-.
        rewrite assign_eq. simpl. rewrite take_app_length.
        by rewrite Hlen, Hv, (agree_vsize _ _ x Ha).
  - intros k g i r Hk Hi.
    destruct (decide (k < length (packed (packLoop h l) ++ [transactions (packLoop h l)]))%nat)
      as [Hlt|Hge].
    + rewrite lookup_app_l in Hk by done.
      assert (r ≠ x) as Hne.
      { intros ->. apply Hx. rewrite <- Hc.
        replace (concat (packed (packLoop h l)) ++ transactions (packLoop h l))
          with (concat (packed (packLoop h l) ++ [transactions (packLoop h l)])).
        - by eapply elem_of_groups.
        - rewrite concat_app. simpl. by rewrite app_nil_r. }
      rewrite assign_ne by done. by apply (IH k g i r).
    + assert (k = length (packed (packLoop h l) ++ [transactions (packLoop h l)])) as ->.
      { apply lookup_lt_Some in Hk. rewrite !length_app in *. simpl in *. lia. }
      rewrite list_lookup_middle in Hk by done. injection Hk as <-.
      destruct i; simpl in Hi; [|by destruct i]. injection Hi as <-.
      rewrite assign_eq. simpl.
      rewrite !length_app, Hlen. simpl.
      by rewrite (agree_vsize _ _ x Ha).
Qed.

Lemma mid_lt (A vr R vs : Qc) :
  (0 < vr → 0 ≤ R → 0 < vs →
   A + vr / num 2 < A + (vr + R) + vs / num 2)%Qc.
Proof.
  unfold Qclt, Qcle. intros H1 H2 H3. simpl in *.
  unfold Qcdiv, Qcinv, Qcmult, Qcplus, Q2Qc. simpl.
  repeat rewrite Qred_correct.
  change (/ inject_Z 2)%Q with (1 # 2)%Q.
  change (Qred 0) with 0%Q in *. lra.
Qed.

Lemma sumVsizes_nonneg h l :
  (∀ r, r ∈ l → (0 < Tx.vsize (h r))%Qc) → (0 ≤ sumVsizes h l)%Qc.
Proof.
  induction l as [|r l IH]; simpl; intros H; [done|].
  apply Qcplus_nonneg_nonneg.
  - apply Qclt_le_weak, H. left.
  - apply IH. intros x Hx. apply H. by right.
Qed.

Lemma sumVsizes_take_lt h g i j r :
  (i < j)%nat → g !! i = Some r →
  sumVsizes h (take j g) =
  (sumVsizes h (take i g)
   + (Tx.vsize (h r) + sumVsizes h (take (j - S i) (drop (S i) g))))%Qc.
Proof.
  intros Hij Hi.
  replace j with (S i + (j - S i))%nat at 1 by lia.
  rewrite <- take_take_drop, (take_S_r _ _ _ Hi), !sumVsizes_app. simpl. ring.
Qed.

(** C4. With distinct transaction objects of positive vsize, after
  [calculateMempoolBlocks] every transaction of an assembled block has
  [position.block] equal to the index of the block and [position.vsize]
  equal to the sum of the vsizes placed before it in the block plus half
  its own vsize; within a block the [position.vsize] values are strictly
  increasing in packing order. *)
Theorem positions_in_block (h : heap) (txs : list ref) :
  NoDup txs →
  (∀ r, r ∈ txs → (0 < Tx.vsize (h r))%Qc) →
  ∀ k g, packedBlocks h txs !! k = Some g →
    (∃ b, (calculateMempoolBlocks h txs).1 !! k = Some b ∧
          Block.transactionIds b = map (λ r, Tx.txid (h r)) g) ∧
    (∀ i r, g !! i = Some r →
       Tx.position ((calculateMempoolBlocks h txs).2 r) =
       Some (Position.mk k
               (sumVsizes h (take i g) + Tx.vsize (h r) / num 2)%Qc)) ∧
    (∀ i j r s, (i < j)%nat → g !! i = Some r → g !! j = Some s →
       ∃ p q, Tx.position ((calculateMempoolBlocks h txs).2 r) = Some p ∧
              Tx.position ((calculateMempoolBlocks h txs).2 s) = Some q ∧
              (Position.vsize p < Position.vsize q)%Qc).
Proof.
  intros Hnd Hpos k g Hg.
  destruct (calculateMempoolBlocks_packed h txs) as [HF Hcat].
  assert (∀ i r, g !! i = Some r →
       Tx.position ((calculateMempoolBlocks h txs).2 r) =
       Some (Position.mk k
               (sumVsizes h (take i g) + Tx.vsize (h r) / num 2)%Qc)) as Hposn.
  { intros i r Hi. pose proof (packLoop_positioned h txs Hnd) as HP.
    replace ((calculateMempoolBlocks h txs).2) with (store (packLoop h txs))
      by (unfold calculateMempoolBlocks; by destruct (transactions _)).
    apply (HP k g i r); [|done].
    unfold packedBlocks in Hg.
    destruct (transactions (packLoop h txs)); [|done].
    apply lookup_app_l_Some. done. }
  split; [|split; [done|]].
  - destruct (Forall2_lookup_r _ _ _ _ _ HF Hg) as (b & Hb & Hbg & _).
    by exists b.
  - intros i j r s Hij Hi Hj. eexists _, _.
    split; [by apply Hposn|]. split; [by apply Hposn|]. simpl.
    assert (∀ x, x ∈ g → (0 < Tx.vsize (h x))%Qc) as Hg_pos.
    { intros x Hx. apply Hpos. rewrite <- Hcat.
      apply list_elem_of_In, in_concat. exists g.
      split; apply list_elem_of_In; [by eapply list_elem_of_lookup_2|done]. }
    rewrite (sumVsizes_take_lt h g i j r Hij Hi).
    apply mid_lt.
    + apply Hg_pos. by eapply list_elem_of_lookup_2.
    + apply sumVsizes_nonneg. intros x Hx. apply Hg_pos.
      by eapply subseteq_drop, subseteq_take.
    + apply Hg_pos. by eapply list_elem_of_lookup_2.
Qed.

(** ** Properties of [updateMempoolBlocks] *)

Lemma clearStep_other h r x : x ≠ r → clearStep h r x = h x.
Proof.
  intros Hne. unfold clearStep.
  case_decide; rewrite ?assign_ne by done; done.
Qed.

Lemma clearStep_same h r :
  Tx.txid (clearStep h r r) = Tx.txid (h r) ∧
  Tx.weight (clearStep h r r) = Tx.weight (h r) ∧
  Tx.feePerVsize (clearStep h r r) = Tx.feePerVsize (h r) ∧
  Tx.effectiveFeePerVsize (clearStep h r r) = clearedRate (h r).
Proof.
  unfold clearStep, clearedRate. rewrite !assign_eq. simpl.
  case_decide; rewrite !assign_eq; simpl; by rewrite ?assign_eq.
Qed.

Lemma clearStep_field {A} (field : Tx.t → A) h r x :
  field (clearStep h r r) = field (h r) → field (clearStep h r x) = field (h x).
Proof.
  intros H. destruct (decide (x = r)) as [->|Hne]; [done|].
  by rewrite clearStep_other.
Qed.

Lemma clearLoop_fields h l x :
  Tx.txid (foldl clearStep h l x) = Tx.txid (h x) ∧
  Tx.weight (foldl clearStep h l x) = Tx.weight (h x) ∧
  Tx.feePerVsize (foldl clearStep h l x) = Tx.feePerVsize (h x).
Proof.
  induction l as [|r l IH] using rev_ind; [done|].
  rewrite foldl_app. simpl. destruct IH as (IH1 & IH2 & IH3).
  destruct (clearStep_same (foldl clearStep h l) r) as (H1 & H2 & H3 & _).
  rewrite <- IH1, <- IH2, <- IH3.
  split; [|split]; by apply clearStep_field.
Qed.

Lemma clearedRate_idemp tx tx' :
  Tx.feePerVsize tx' = Tx.feePerVsize tx →
  Tx.effectiveFeePerVsize tx' = clearedRate tx →
  clearedRate tx' = clearedRate tx.
Proof.
  unfold clearedRate. intros Hf He. rewrite He, Hf.
  destruct (decide (Tx.effectiveFeePerVsize tx = 0%Qc)) as [H0|H0].
  - by case_decide.
  - by rewrite decide_False.
Qed.

Lemma clearLoop_rate h l x :
  Tx.effectiveFeePerVsize (foldl clearStep h l x) =
  if decide (x ∈ l) then clearedRate (h x) else Tx.effectiveFeePerVsize (h x).
Proof.
  induction l as [|r l IH] using rev_ind.
  { by rewrite decide_False by apply not_elem_of_nil. }
  rewrite foldl_app. simpl.
  destruct (clearLoop_fields h l x) as (_ & _ & Hf).
  destruct (decide (x = r)) as [->|Hne].
  - rewrite decide_True by (apply elem_of_app; right; by apply list_elem_of_singleton).
    destruct (clearStep_same (foldl clearStep h l) r) as (_ & _ & _ & ->).
    destruct (decide (r ∈ l)) as [Hin|Hnin].
    + by apply clearedRate_idemp.
    + unfold clearedRate. by rewrite IH, Hf.
  - rewrite clearStep_other by done. rewrite IH.
    destruct (decide (x ∈ l)) as [Hin|Hnin].
    + rewrite decide_True; [done|]. apply elem_of_app. by left.
    + rewrite decide_False; [done|].
      intros [?|?%list_elem_of_singleton]%elem_of_app; done.
Qed.

Lemma resolveLoop_field {A} (field : Tx.t → A) memPool l acc x :
  keeps field setRelativesAndGetCpfpInfo →
  field ((foldl (resolveStep memPool) acc l).1.2 x) = field (acc.1.2 x).
Proof.
  intros Hk. induction l as [|r l IH] using rev_ind; [done|].
  rewrite foldl_app. simpl. unfold resolveStep at 1.
  case_decide; simpl; [done|]. by rewrite Hk.
Qed.

Lemma resolveLoop_sizes memPool l acc :
  keeps Tx.weight setRelativesAndGetCpfpInfo →
  (foldl (resolveStep memPool) acc l).1.1 = acc.1.1 + sumWeights acc.1.2 l.
Proof.
  intros Hk. induction l as [|r l IH] using rev_ind; [simpl; lia|].
  rewrite foldl_app, sumWeights_app. simpl. unfold resolveStep at 1.
  rewrite (resolveLoop_field Tx.weight) by done.
  case_decide; simpl; lia.
Qed.

Lemma resolveLoop_calls memPool l h x :
  keeps Tx.weight setRelativesAndGetCpfpInfo →
  x ∈ (foldl (resolveStep memPool) (0, h, []) l).2 →
  ∃ j, l !! j = Some x ∧ sumWeights h (take (S j) l) ≤ RESOLVE_WEIGHT_CAP.
Proof.
  intros Hk. induction l as [|r l IH] using rev_ind.
  { intros H. by apply elem_of_nil in H. }
  rewrite foldl_app. simpl. unfold resolveStep at 1.
  rewrite (resolveLoop_field Tx.weight), resolveLoop_sizes by done. simpl.
  assert (∀ j, l !! j = Some x →
            sumWeights h (take (S j) l) ≤ RESOLVE_WEIGHT_CAP →
            (l ++ [r]) !! j = Some x ∧
            sumWeights h (take (S j) (l ++ [r])) ≤ RESOLVE_WEIGHT_CAP) as Hold.
  { intros j Hj Hs. split; [by apply lookup_app_l_Some|].
    apply lookup_lt_Some in Hj. by rewrite take_app_le by lia. }
  case_decide as Hcap; simpl.
  - intros (j & Hj & Hs)%IH. exists j. by apply Hold.
  - intros [(j & Hj & Hs)%IH| ->%list_elem_of_singleton]%elem_of_app.
    + exists j. by apply Hold.
    + exists (length l). split; [by apply list_lookup_middle|].
      rewrite firstn_all2 by (rewrite length_app; simpl; lia).
      rewrite sumWeights_app. simpl. lia.
Qed.

Lemma resolveLoop_calls_mono memPool l acc x :
  x ∈ acc.2 → x ∈ (foldl (resolveStep memPool) acc l).2.
Proof.
  intros Hx. induction l as [|r l IH] using rev_ind; [done|].
  rewrite foldl_app. simpl. unfold resolveStep at 1.
  case_decide; simpl; [done|]. apply elem_of_app. by left.
Qed.

Lemma resolveLoop_rate memPool l acc x :
  resolves_own_rate setRelativesAndGetCpfpInfo →
  x ∉ (foldl (resolveStep memPool) acc l).2 →
  Tx.effectiveFeePerVsize ((foldl (resolveStep memPool) acc l).1.2 x) =
  Tx.effectiveFeePerVsize (acc.1.2 x).
Proof.
  intros Hr. induction l as [|r l IH] using rev_ind; [done|].
  rewrite foldl_app. simpl. unfold resolveStep at 1 3.
  case_decide; simpl; [done|].
  intros [Hx Hne%not_elem_of_cons]%not_elem_of_app.
  rewrite Hr by apply Hne. by apply IH.
Qed.

Lemma firstSorted_Permutation memPool h : firstSorted memPool h ≡ₚ map snd memPool.
Proof. apply merge_sort_Permutation. Qed.

Lemma finalSorted_Permutation memPool h : finalSorted memPool h ≡ₚ map snd memPool.
Proof.
  unfold finalSorted, sort. rewrite merge_sort_Permutation.
  apply firstSorted_Permutation.
Qed.

Lemma keyed_by_txid_keys h memPool :
  keyed_by_txid h memPool →
  map (λ r, Tx.txid (h r)) (map snd memPool) = map fst memPool.
Proof.
  intros [_ Hk]. rewrite map_map. apply map_ext_in.
  intros [k r] Hin%list_elem_of_In. simpl. by apply Hk.
Qed.

(** ** Sorting lists of distinct, pairwise comparable elements *)

Section sort_distinct.
Context {A} (R : relation A) `{∀ x y, Decision (R x y)}.

Lemma comparableOn_subseteq l k :
  k ⊆ l → comparableOn R l → comparableOn R k.
Proof. intros Hk Hl a b Ha Hb. apply Hl; by apply Hk. Qed.

Lemma Sorted_list_merge_distinct l1 l2 :
  NoDup (l1 ++ l2) → comparableOn R (l1 ++ l2) →
  Sorted R l1 → Sorted R l2 → Sorted R (list_merge R l1 l2).
Proof.
  intros Hnd Hc Hl1. revert l2 Hnd Hc.
  induction Hl1 as [|x1 l1 Hs1 IH1 Hh1]; intros l2 Hnd Hc Hl2.
  { by rewrite list_merge_nil_l. }
  induction Hl2 as [|x2 l2 Hs2 IH2 Hh2].
  { rewrite list_merge_nil_r. by constructor. }
  rewrite list_merge_cons. case_decide as HR.
  - constructor.
    + apply IH1; [by apply NoDup_cons in Hnd as [_ ?]| |by constructor].
      eapply comparableOn_subseteq; [|done]. by apply list_subseteq_cons.
    + apply HdRel_list_merge; [done|by constructor].
  - assert (R x2 x1) as HR'.
    { destruct (Hc x1 x2) as [?|?]; [left| |  |done|done].
      - apply elem_of_app. right. left.
      - intros ->. apply NoDup_cons in Hnd as [Hx _]. apply Hx.
        apply elem_of_app. right. left. }
    assert ((x1 :: l1) ++ l2 ⊆ (x1 :: l1) ++ x2 :: l2) as Hsub.
    { intros y [?|?]%elem_of_app; apply elem_of_app; [by left|].
      right. by right. }
    constructor.
    + apply IH2.
      * eapply sublist_NoDup; [done|].
        apply sublist_app; [done|]. by apply sublist_cons.
      * by eapply comparableOn_subseteq.
    + apply HdRel_list_merge; [by constructor|done].
Qed.

Lemma Sorted_merge_list_to_stack_distinct st l :
  merge_stack_Sorted R st → Sorted R l →
  NoDup (l ++ merge_stack_flatten st) →
  comparableOn R (l ++ merge_stack_flatten st) →
  merge_stack_Sorted R (merge_list_to_stack R st l).
Proof.
  intros Hst. revert l.
  induction Hst as [|st Hst IH|l2 st Hl2 Hst IH]; intros l Hl Hnd Hc; simpl.
  - by repeat constructor.
  - by repeat constructor.
  - constructor. simpl in Hnd, Hc. rewrite (assoc_L (++)) in Hnd, Hc. apply IH.
    + apply Sorted_list_merge_distinct; [| |done|done].
      * rewrite (comm (++)). by apply NoDup_app in Hnd as [? _].
      * eapply comparableOn_subseteq; [|done]. intros y Hy.
        apply elem_of_app. left. by rewrite (comm (++)).
    + by rewrite merge_Permutation, (comm (++) l2).
    + eapply comparableOn_subseteq; [|done]. intros y.
      by rewrite merge_Permutation, (comm (++) l2).
Qed.

Lemma Sorted_merge_stack_distinct st :
  merge_stack_Sorted R st →
  NoDup (merge_stack_flatten st) → comparableOn R (merge_stack_flatten st) →
  Sorted R (merge_stack R st).
Proof.
  induction 1 as [|st Hst IH|l st Hl Hst IH]; intros Hnd Hc; simpl.
  - constructor.
  - by apply IH.
  - simpl in Hnd, Hc. apply Sorted_list_merge_distinct.
    + by rewrite merge_stack_Permutation.
    + eapply comparableOn_subseteq; [|done]. intros y.
      by rewrite merge_stack_Permutation.
    + done.
    + apply IH.
      * by apply NoDup_app in Hnd as (_ & _ & ?).
      * eapply comparableOn_subseteq; [|done]. intros y Hy.
        apply elem_of_app. by right.
Qed.

Lemma Sorted_merge_sort_aux_distinct st l :
  merge_stack_Sorted R st →
  NoDup (merge_stack_flatten st ++ l) →
  comparableOn R (merge_stack_flatten st ++ l) →
  Sorted R (merge_sort_aux R st l).
Proof.
  revert st. induction l as [|x l IH]; intros st Hst Hnd Hc; simpl.
  - rewrite app_nil_r in Hnd, Hc. by apply Sorted_merge_stack_distinct.
  - assert (merge_stack_flatten (merge_list_to_stack R st [x]) ++ l
            ≡ₚ merge_stack_flatten st ++ x :: l) as Hp.
    { rewrite merge_list_to_stack_Permutation. simpl.
      by rewrite Permutation_middle. }
    apply IH.
    + apply Sorted_merge_list_to_stack_distinct; [done|by repeat constructor| |].
      * apply NoDup_app in Hnd as (Hst' & Hx & _). simpl.
        apply NoDup_cons. split; [|done]. intros Hin. apply (Hx x Hin). left.
      * eapply comparableOn_subseteq; [|done]. intros y.
        rewrite !elem_of_app, !elem_of_cons, elem_of_nil. tauto.
    + by rewrite Hp.
    + eapply comparableOn_subseteq; [|done]. intros y. by rewrite Hp.
Qed.

Lemma Sorted_merge_sort_distinct l :
  NoDup l → comparableOn R l → Sorted R (merge_sort R l).
Proof.
  intros Hnd Hc. apply Sorted_merge_sort_aux_distinct; [constructor|done|done].
Qed.

End sort_distinct.

Lemma ltb_total s t : s ≠ t → String.ltb s t = true ∨ String.ltb t s = true.
Proof.
  intros Hne. unfold String.ltb. rewrite (String.compare_antisym t s).
  destruct (String.compare s t) eqn:E; simpl; [|by left|by right].
  by apply String.compare_eq_iff in E.
Qed.

Lemma Qc_sub_le_0 (x y : Qc) : (x - y ≤ 0 ↔ x ≤ y)%Qc.
Proof.
  unfold Qcle, Qcminus, Qcplus, Qcopp, Q2Qc. simpl.
  rewrite !Qred_correct. change (Qred 0) with 0%Q. split; intros; lra.
Qed.

Lemma goesFirst_compareFee h a b :
  goesFirst (compareFee h) a b ↔ feeOrder h a b.
Proof.
  unfold goesFirst, compareFee, feeOrder. case_decide as Heq.
  - destruct (String.ltb _ _).
    + split; [by right|]. intros _. by vm_compute.
    + split; [intros Hle; by vm_compute in Hle|].
      intros [Hlt|[_ ?]]; [|done]. rewrite Heq in Hlt.
      by apply Qclt_not_eq in Hlt.
  - rewrite Qc_sub_le_0. split.
    + intros Hle. left. apply Qcle_lt_or_eq in Hle as [?|?]; [done|].
      by destruct Heq.
    + intros [Hlt|[? _]]; [by apply Qclt_le_weak|done].
Qed.

Lemma keyed_by_txid_NoDup h memPool :
  keyed_by_txid h memPool → NoDup (map snd memPool).
Proof.
  intros Hk. apply (NoDup_fmap_1 (λ r, Tx.txid (h r))).
  change (NoDup (map (λ r, Tx.txid (h r)) (map snd memPool))).
  rewrite (keyed_by_txid_keys h memPool Hk). apply Hk.
Qed.

Lemma keyed_by_txid_inj h memPool a b :
  keyed_by_txid h memPool → a ∈ map snd memPool → b ∈ map snd memPool →
  Tx.txid (h a) = Tx.txid (h b) → a = b.
Proof.
  intros Hk Ha Hb Heq.
  pose proof (keyed_by_txid_keys h memPool Hk) as Hkeys.
  destruct Hk as [Hnd _]. rewrite <- Hkeys in Hnd.
  apply list_elem_of_lookup in Ha as [i Hi], Hb as [j Hj].
  assert (i = j) as ->; [|congruence].
  eapply NoDup_lookup; [exact Hnd| |].
  - change (map (λ r, Tx.txid (h r)) (map snd memPool))
      with ((λ r, Tx.txid (h r)) <$> map snd memPool).
    rewrite list_lookup_fmap, Hi. done.
  - change (map (λ r, Tx.txid (h r)) (map snd memPool))
      with ((λ r, Tx.txid (h r)) <$> map snd memPool).
    rewrite list_lookup_fmap, Hj. simpl. by rewrite Heq.
Qed.

Lemma Sorted_weaken {A} (R R' : relation A) l :
  (∀ a b, R a b → R' a b) → Sorted R l → Sorted R' l.
Proof.
  intros HR. induction 1 as [|x l Hs IH Hh]; constructor; [done|].
  destruct Hh; constructor. by apply HR.
Qed.

Lemma feeOrder_ext h h' a b :
  (∀ x, Tx.feePerVsize (h x) = Tx.feePerVsize (h' x)) →
  (∀ x, Tx.txid (h x) = Tx.txid (h' x)) →
  feeOrder h a b → feeOrder h' a b.
Proof. unfold feeOrder. intros Hf Ht. by rewrite !Hf, !Ht. Qed.

Lemma firstSorted_Sorted memPool h :
  keyed_by_txid h memPool → Sorted (feeOrder h) (firstSorted memPool h).
Proof.
  intros Hk. unfold firstSorted, sort.
  eapply Sorted_weaken; [|apply Sorted_merge_sort_distinct].
  - intros a b Hab%goesFirst_compareFee. revert Hab.
    apply feeOrder_ext; intros x; apply clearLoop_fields.
  - by eapply keyed_by_txid_NoDup.
  - intros a b Ha Hb Hne. rewrite !goesFirst_compareFee.
    set (hc := foldl clearStep h (map snd memPool)).
    assert (Tx.txid (hc a) ≠ Tx.txid (hc b)) as Hid.
    { unfold hc.
      destruct (clearLoop_fields h (map snd memPool) a) as (-> & _ & _).
      destruct (clearLoop_fields h (map snd memPool) b) as (-> & _ & _).
      intros Heq. apply Hne. by eapply keyed_by_txid_inj. }
    unfold feeOrder.
    destruct (Qclt_le_dec (Tx.feePerVsize (hc b)) (Tx.feePerVsize (hc a)))
      as [Hlt|Hle]; [by left; left|].
    apply Qcle_lt_or_eq in Hle as [Hlt|Heq]; [by right; left|].
    destruct (ltb_total _ _ Hid) as [Hs|Hs]; [left|right]; right; by rewrite Heq.
Qed.

Lemma updateMempoolBlocks_blocks memPool saveResults this h :
  (updateMempoolBlocks memPool saveResults this h).1.1 =
  (calculateMempoolBlocks (resolveLoop memPool h).1.2 (finalSorted memPool h)).1.
Proof.
  unfold updateMempoolBlocks.
  destruct (calculateMempoolBlocks _ _) as [blocks h2].
  by destruct saveResults.
Qed.

Lemma updateMempoolBlocks_store memPool saveResults this h :
  (updateMempoolBlocks memPool saveResults this h).2 =
  (calculateMempoolBlocks (resolveLoop memPool h).1.2 (finalSorted memPool h)).2.
Proof.
  unfold updateMempoolBlocks.
  destruct (calculateMempoolBlocks _ _) as [blocks h2].
  by destruct saveResults.
Qed.

(** C8. For a mempool keyed by txid and a resolver that leaves txids
  alone, every txid in the [transactionIds] of the blocks returned by
  [updateMempoolBlocks] is a key of the input mempool, and no txid occurs
  twice across the [transactionIds] of all blocks. *)
Theorem projected_txids (memPool : mempool) (saveResults : bool)
    (this : This.t) (h : heap) :
  keeps Tx.txid setRelativesAndGetCpfpInfo →
  keyed_by_txid h memPool →
  (∀ t, t ∈ concat (map Block.transactionIds
                      (updateMempoolBlocks memPool saveResults this h).1.1) →
        t ∈ map fst memPool) ∧
  NoDup (concat (map Block.transactionIds
                   (updateMempoolBlocks memPool saveResults this h).1.1)).
Proof.
  intros Hk Hkeyed.
  assert (concat (map Block.transactionIds
                    (updateMempoolBlocks memPool saveResults this h).1.1)
          ≡ₚ map fst memPool) as Hperm.
  { assert (∀ l, map (λ r, Tx.txid ((resolveLoop memPool h).1.2 r)) l =
                 map (λ r, Tx.txid (h r)) l) as Hids.
    { intros l. apply map_ext. intros r. unfold resolveLoop.
      rewrite (resolveLoop_field Tx.txid) by done. simpl.
      apply clearLoop_fields. }
    rewrite updateMempoolBlocks_blocks, calculateMempoolBlocks_transactionIds.
    rewrite Hids, (finalSorted_Permutation memPool h).
    by rewrite (keyed_by_txid_keys h memPool Hkeyed). }
  split.
  - intros t Ht. by rewrite <- Hperm.
  - rewrite Hperm. apply Hkeyed.
Qed.

Lemma sumWeights_ext h h' l :
  (∀ x, Tx.weight (h x) = Tx.weight (h' x)) → sumWeights h l = sumWeights h' l.
Proof.
  intros H. induction l as [|r l IH]; simpl; [done|]. by rewrite IH, H.
Qed.

(** C1 (amended). In [updateMempoolBlocks], for a mempool keyed by txid
    and a resolver that assigns [effectiveFeePerVsize] only on the
    transaction it is called on and never assigns [weight] or [feePerVsize]:
    the first sort puts the transactions in [feePerVsize]-descending order,
    ties broken by ascending txid; iterating in this order, a transaction
    whose running weight (its own included) exceeds [4000000 * 8] is not
    passed to the resolver; its [effectiveFeePerVsize] at the end of the
    call is its [feePerVsize] when it entered the call with no rate (zero),
    and the rate it entered with otherwise. *)
Theorem resolver_weight_cap (memPool : mempool) (saveResults : bool)
    (this : This.t) (h : heap) :
  keeps Tx.weight setRelativesAndGetCpfpInfo →
  keeps Tx.feePerVsize setRelativesAndGetCpfpInfo →
  resolves_own_rate setRelativesAndGetCpfpInfo →
  keyed_by_txid h memPool →
  firstSorted memPool h ≡ₚ map snd memPool ∧
  Sorted (feeOrder h) (firstSorted memPool h) ∧
  ∀ i r, firstSorted memPool h !! i = Some r →
    RESOLVE_WEIGHT_CAP < sumWeights h (take (S i) (firstSorted memPool h)) →
    (r ∉ resolved memPool h) ∧
    Tx.effectiveFeePerVsize
      ((updateMempoolBlocks memPool saveResults this h).2 r) =
      (if decide (Tx.effectiveFeePerVsize (h r) = 0%Qc)
       then Tx.feePerVsize (h r)
       else Tx.effectiveFeePerVsize (h r)) ∧
    Tx.feePerVsize ((updateMempoolBlocks memPool saveResults this h).2 r) =
      Tx.feePerVsize (h r).
Proof.
  intros Hkw Hkf Hown Hkeyed.
  split; [apply firstSorted_Permutation|].
  split; [by apply firstSorted_Sorted|].
  intros i r Hi Hcap.
  pose proof (keyed_by_txid_NoDup h memPool Hkeyed) as Hnd.
  assert (r ∉ resolved memPool h) as Hnot.
  { unfold resolved, resolveLoop. intros (j & Hj & Hs)%resolveLoop_calls; [|done].
    assert (NoDup (firstSorted memPool h)) as Hnd'
      by (by rewrite firstSorted_Permutation).
    assert (j = i) as -> by apply (NoDup_lookup _ j i r Hnd' Hj Hi).
    erewrite sumWeights_ext in Hs; [|intros x; apply clearLoop_fields].
    lia. }
  assert (agree (resolveLoop memPool h).1.2
                (updateMempoolBlocks memPool saveResults this h).2) as Ha.
  { rewrite updateMempoolBlocks_store. apply calculateMempoolBlocks_agree. }
  split; [done|]. split.
  - rewrite <- (agree_effectiveFeePerVsize _ _ r Ha).
    unfold resolveLoop. rewrite resolveLoop_rate by done. simpl.
    rewrite clearLoop_rate, decide_True; [done|].
    rewrite <- firstSorted_Permutation. by eapply list_elem_of_lookup_2.
  - rewrite <- (agree_feePerVsize _ _ r Ha).
    unfold resolveLoop. rewrite (resolveLoop_field Tx.feePerVsize) by done.
    simpl. apply clearLoop_fields.
Qed.

(** C9. A call to [updateMempoolBlocks] or [processBlockTemplates] with
  [saveResults] true replaces both stored fields: [mempoolBlocks] by the
  blocks it returns and [mempoolBlockDeltas] by the deltas from the
  previously stored blocks to these; with [saveResults] false both fields
  are unchanged and the read accessors return the previous snapshot. *)
Theorem snapshot_replacement (memPool : mempool)
    (blocks : list (list Thread.t)) (clusters : gmap string (list string))
    (this : This.t) (h : heap) :
  (let res := updateMempoolBlocks memPool true this h in
   This.mempoolBlocks res.1.2 = res.1.1 ∧
   This.mempoolBlockDeltas res.1.2 =
     calculateMempoolDeltas (This.mempoolBlocks this) res.1.1) ∧
  (let res := updateMempoolBlocks memPool false this h in
   res.1.2 = this ∧
   getMempoolBlocks res.1.2 = getMempoolBlocks this ∧
   getMempoolBlocksWithTransactions res.1.2 = getMempoolBlocksWithTransactions this ∧
   getMempoolBlockDeltas res.1.2 = getMempoolBlockDeltas this) ∧
  (let res := processBlockTemplates memPool blocks clusters true this h in
   This.mempoolBlocks res.1.2 = res.1.1 ∧
   This.mempoolBlockDeltas res.1.2 =
     calculateMempoolDeltas (This.mempoolBlocks this) res.1.1) ∧
  (let res := processBlockTemplates memPool blocks clusters false this h in
   res.1.2 = this ∧
   getMempoolBlocks res.1.2 = getMempoolBlocks this ∧
   getMempoolBlocksWithTransactions res.1.2 = getMempoolBlocksWithTransactions this ∧
   getMempoolBlockDeltas res.1.2 = getMempoolBlockDeltas this).
Proof.
  unfold updateMempoolBlocks, processBlockTemplates.
  destruct (calculateMempoolBlocks _ _) as [bs h2]. simpl. done.
Qed.

(** ** Further properties of the delta computer *)

Lemma filter_nil_elem {A} (P : A → Prop) `{∀ x, Decision (P x)} (l : list A) :
  (∀ x, x ∈ l → ¬ P x) → filter P l = [].
Proof.
  induction l as [|x l IH]; intros Hl; [done|].
  rewrite filter_cons_False by (apply Hl; left).
  apply IH. intros y Hy. apply Hl. by right.
Qed.

Lemma omap_nil_elem {A B} (f : A → option B) (l : list A) :
  (∀ x, x ∈ l → f x = None) → omap f l = [].
Proof.
  induction l as [|x l IH]; intros Hl; [done|]. cbn.
  rewrite (Hl x) by left. apply IH. intros y Hy. apply Hl. by right.
Qed.

(** X1. At an index that only the new snapshot has, the delta adds all
    the records of the new block and removes nothing; at an index that only
    the previous snapshot has, it removes all the txids of the previous
    block and adds nothing; beyond both there is no delta. *)
Theorem deltas_one_sided (prevBlocks newBlocks : list Block.t) (i : nat) :
  (∀ n, prevBlocks !! i = None → newBlocks !! i = Some n →
     calculateMempoolDeltas prevBlocks newBlocks !! i =
     Some (Delta.mk (Block.transactions n) [] [])) ∧
  (∀ p, prevBlocks !! i = Some p → newBlocks !! i = None →
     calculateMempoolDeltas prevBlocks newBlocks !! i =
     Some (Delta.mk [] (txids (Block.transactions p)) [])) ∧
  (prevBlocks !! i = None → newBlocks !! i = None →
     calculateMempoolDeltas prevBlocks newBlocks !! i = None).
Proof.
  split; [|split].
  - intros n Hp Hn. rewrite calculateMempoolDeltas_lookup, Hp, Hn; [done|].
    apply lookup_lt_Some in Hn. lia.
  - intros p Hp Hn. rewrite calculateMempoolDeltas_lookup, Hp, Hn; [done|].
    apply lookup_lt_Some in Hp. lia.
  - intros Hp%lookup_ge_None Hn%lookup_ge_None. apply lookup_ge_None.
    rewrite calculateMempoolDeltas_length. lia.
Qed.

(** X2. Delta idempotence: the deltas from a snapshot to itself are all
    empty, when each txid occurs once in a block. *)
Theorem deltas_self (blocks : list Block.t) :
  (∀ b, b ∈ blocks → NoDup (txids (Block.transactions b))) →
  calculateMempoolDeltas blocks blocks =
  replicate (length blocks) (Delta.mk [] [] []).
Proof.
  intros Hnd. apply list_eq. intros i.
  destruct (blocks !! i) as [b|] eqn:Hb.
  - rewrite calculateMempoolDeltas_lookup, Hb
      by (apply lookup_lt_Some in Hb; lia).
    rewrite lookup_replicate_2 by (by eapply lookup_lt_Some).
    f_equal. rewrite deltaAt_both. f_equal.
    + apply filter_nil_elem. intros s Hs Hn. apply Hn.
      by apply list_elem_of_fmap_2.
    + apply filter_nil_elem. intros t Ht Hn. by apply Hn.
    + apply omap_nil_elem. intros s Hs. unfold changeOf.
      rewrite mkPrevIds_NoDup; [|by eapply Hnd, list_elem_of_lookup_2|done].
      simpl. by rewrite decide_True.
  - apply lookup_ge_None in Hb.
    rewrite (proj2 (lookup_ge_None _ _)), (proj2 (lookup_ge_None _ _)); [done| |].
    + by rewrite length_replicate.
    + rewrite calculateMempoolDeltas_length. lia.
Qed.

(** X3. At an index where both blocks exist, the three parts of the delta
    do not overlap: a removed txid is in the previous block only, an added
    record has a txid of the new block only, and the txid of a changed entry
    is in both blocks, so it is neither removed nor added. *)
Theorem delta_parts_disjoint (prevBlocks newBlocks : list Block.t) i p n :
  prevBlocks !! i = Some p → newBlocks !! i = Some n →
  ∃ d, calculateMempoolDeltas prevBlocks newBlocks !! i = Some d ∧
    (∀ t, t ∈ Delta.removed d →
       t ∈ txids (Block.transactions p) ∧
       (t ∉ txids (Block.transactions n)) ∧
       (t ∉ txids (Delta.added d))) ∧
    (∀ s, s ∈ Delta.added d →
       s ∈ Block.transactions n ∧
       (Stripped.txid s ∉ txids (Block.transactions p))) ∧
    (∀ c, c ∈ Delta.changed d →
       Change.txid c ∈ txids (Block.transactions p) ∧
       Change.txid c ∈ txids (Block.transactions n) ∧
       (Change.txid c ∉ Delta.removed d) ∧
       (Change.txid c ∉ txids (Delta.added d))).
Proof.
  intros Hp Hn. eexists. split.
  { rewrite calculateMempoolDeltas_lookup, Hp, Hn; [done|].
    apply lookup_lt_Some in Hp. lia. }
  rewrite deltaAt_both. simpl.
  assert (∀ t, t ∈ txids (filter
             (λ tx, Stripped.txid tx ∉ txids (Block.transactions p))
             (Block.transactions n)) →
          t ∈ txids (Block.transactions n) ∧
          (t ∉ txids (Block.transactions p)))
    as Hadded.
  { intros t (s & -> & [Hs1 Hs2]%list_elem_of_filter)%list_elem_of_fmap.
    split; [by apply list_elem_of_fmap_2|done]. }
  split; [|split].
  - intros t [Ht1 Ht2]%list_elem_of_filter.
    split; [exact Ht2|]. split; [exact Ht1|].
    intros [Hc _]%Hadded. by apply Ht1.
  - intros s [Hs1 Hs2]%list_elem_of_filter. split; [exact Hs2|exact Hs1].
  - intros c (s & Hs & Hc)%list_elem_of_omap. unfold changeOf in Hc.
    destruct (mkPrevIds (Block.transactions p) !! Stripped.txid s) as [q|] eqn:E;
      simpl in Hc; [|done].
    apply mkPrevIds_Some in E as [Hq Heq].
    case_decide; [done|]. injection Hc as <-. simpl.
    assert (Stripped.txid s ∈ txids (Block.transactions p)) as Hinp.
    { rewrite <- Heq. by apply list_elem_of_fmap_2. }
    assert (Stripped.txid s ∈ txids (Block.transactions n)) as Hinn
      by (by apply list_elem_of_fmap_2).
    split; [exact Hinp|]. split; [exact Hinn|]. split.
    + intros [Hc _]%list_elem_of_filter. by apply Hc.
    + intros [_ Hc]%Hadded. by apply Hc.
Qed.

(** ** Further properties of [dataToMempoolBlocks] *)

Lemma sumSizes_app h l k : sumSizes h (l ++ k) = sumSizes h l + sumSizes h k.
Proof. induction l as [|r l IH]; simpl; lia. Qed.

Lemma sumFees_app h l k : sumFees h (l ++ k) = sumFees h l + sumFees h k.
Proof. induction l as [|r l IH]; simpl; lia. Qed.

Lemma fitLoop_size h l : (fitLoop h l).1.1 = sumSizes h l.
Proof.
  induction l as [|r l IH] using rev_ind; [done|].
  rewrite fitLoop_snoc, fitStep_size, IH, sumSizes_app. simpl. lia.
Qed.

Lemma totalFees_sumFees h l :
  foldl (λ acc cur, acc + Tx.fee (h cur)) 0 l = sumFees h l.
Proof.
  induction l as [|r l IH] using rev_ind; [done|].
  rewrite foldl_app, sumFees_app, IH. simpl. lia.
Qed.

Lemma fitTransactions_snoc h l r :
  fitTransactions h (l ++ [r]) =
  fitTransactions h l ++
    (if decide (num (sumWeights h l + Tx.weight (h r) + Tx.weight (h r))
                ≤ relaxedCap)%Qc
     then [r] else []).
Proof.
  unfold fitTransactions. rewrite fitLoop_snoc. unfold fitStep.
  rewrite fitLoop_weight. case_decide; simpl; [done|by rewrite app_nil_r].
Qed.

(** X4. The totals of a block summary cover all the transactions handed to
    [dataToMempoolBlocks], retained for the clients or not: [blockSize] is
    the sum of their sizes, [blockVSize] a quarter of the sum of their
    weights, [totalFees] the sum of their fees, [nTx] their number,
    [transactionIds] their txids in order, and the fee statistics are those
    of the whole array. *)
Theorem dataToMempoolBlocks_totals (h : heap) (txs : list ref) :
  Block.blockSize (dataToMempoolBlocks h txs) = sumSizes h txs ∧
  Block.blockVSize (dataToMempoolBlocks h txs) =
    (num (sumWeights h txs) / num 4)%Qc ∧
  Block.totalFees (dataToMempoolBlocks h txs) = sumFees h txs ∧
  Block.nTx (dataToMempoolBlocks h txs) = length txs ∧
  Block.transactionIds (dataToMempoolBlocks h txs) =
    map (λ r, Tx.txid (h r)) txs ∧
  (Block.medianFee (dataToMempoolBlocks h txs),
   Block.feeRange (dataToMempoolBlocks h txs)) =
    calcEffectiveFeeStatistics (map h txs).
Proof.
  unfold dataToMempoolBlocks. simpl.
  rewrite fitLoop_size, fitLoop_weight, totalFees_sumFees.
  by destruct (calcEffectiveFeeStatistics (map h txs)).
Qed.

(** X5. The transactions retained for the clients are a sublist of the
    input: none is invented, repeated or reordered, so a block never
    delivers more records than its [nTx]. *)
Theorem retained_sublist (h : heap) (txs : list ref) :
  fitTransactions h txs `sublist_of` txs ∧
  (length (Block.transactions (dataToMempoolBlocks h txs))
   ≤ Block.nTx (dataToMempoolBlocks h txs))%nat.
Proof.
  assert (fitTransactions h txs `sublist_of` txs) as Hsub.
  { induction txs as [|r l IH] using rev_ind; [done|].
    rewrite fitTransactions_snoc. apply sublist_app; [done|].
    case_decide; [done|]. apply sublist_nil_l. }
  split; [done|]. unfold dataToMempoolBlocks. simpl.
  rewrite length_map. by apply sublist_length.
Qed.

(** X6. When no weight is negative and the total weight of the array plus
    the weight of any one of its transactions stays within
    [1.2 × BLOCK_WEIGHT_UNITS], every transaction is retained: the block
    delivers the stripped form of all of them, in order. *)
Theorem light_block_retained_in_full (h : heap) (txs : list ref) :
  (∀ r, r ∈ txs → 0 ≤ Tx.weight (h r)) →
  (∀ r, r ∈ txs →
     (num (sumWeights h txs + Tx.weight (h r))
      ≤ num BLOCK_WEIGHT_UNITS * Q2Qc (12 # 10))%Qc) →
  Block.transactions (dataToMempoolBlocks h txs) =
  map (λ r, stripTransaction (h r)) txs.
Proof.
  intros Hpos Hcap. unfold dataToMempoolBlocks. simpl. f_equal.
  assert (∀ l k, txs = l ++ k → fitTransactions h l = l) as Hpre.
  { induction l as [|r l IH] using rev_ind; intros k Hk; [done|].
    rewrite fitTransactions_snoc, (IH ([r] ++ k)) by (by rewrite Hk, <- app_assoc).
    rewrite decide_True; [done|].
    assert (r ∈ txs) as Hr.
    { rewrite Hk. apply elem_of_app. left. apply elem_of_app. right. left. }
    specialize (Hcap r Hr). apply le_relaxedCap. apply le_relaxedCap in Hcap.
    rewrite Hk in Hcap. rewrite !sumWeights_app in Hcap. simpl in Hcap.
    assert (0 ≤ sumWeights h k).
    { apply sumWeights_nonneg. intros x Hx. apply Hpos. rewrite Hk.
      apply elem_of_app. by right. }
    lia. }
  apply (Hpre txs []). by rewrite app_nil_r.
Qed.

(** ** Further properties of [calculateMempoolBlocks] *)

(** X7. The packer loses and reorders nothing: the [transactionIds] of the
    returned blocks, put end to end, are the txids of the input in input
    order, and the [nTx] of the blocks add up to the length of the input. *)
Theorem packing_preserves_order (h : heap) (txs : list ref) :
  concat (map Block.transactionIds (calculateMempoolBlocks h txs).1) =
    map (λ r, Tx.txid (h r)) txs ∧
  foldr (λ b acc, (Block.nTx b + acc)%nat) 0%nat (calculateMempoolBlocks h txs).1 =
    length txs.
Proof.
  split; [apply calculateMempoolBlocks_transactionIds|].
  destruct (calculateMempoolBlocks_packed h txs) as [HF Hc].
  rewrite <- Hc at 2. clear Hc.
  induction HF as [|b g bs gs (_ & _ & Hn) _ IH]; [done|].
  simpl. by rewrite length_app, Hn, IH.
Qed.

Lemma packStep_other st r x : x ≠ r → store (packStep st r) x = store st x.
Proof.
  intros Hne. unfold packStep. destruct (_ || _); simpl; by rewrite assign_ne.
Qed.

Lemma packStep_length st r :
  (length (mempoolBlocks st) ≤ length (mempoolBlocks (packStep st r)))%nat.
Proof.
  unfold packStep. destruct (_ || _); simpl; [done|]. rewrite length_app. lia.
Qed.

Lemma packStep_position st r :
  ∃ p, Tx.position (store (packStep st r) r) = Some p ∧
       Position.block p = length (mempoolBlocks (packStep st r)).
Proof.
  unfold packStep. destruct (_ || _); simpl; rewrite assign_eq; by eexists.
Qed.

Lemma packLoop_untouched h l x : x ∉ l → store (packLoop h l) x = h x.
Proof.
  induction l as [|r l IH] using rev_ind; [done|].
  intros [Hx Hr%not_elem_of_cons]%not_elem_of_app.
  rewrite packLoop_snoc, packStep_other by apply Hr. by apply IH.
Qed.

Lemma packLoop_has_position h l x :
  x ∈ l →
  ∃ p, Tx.position (store (packLoop h l) x) = Some p ∧
       (Position.block p ≤ length (mempoolBlocks (packLoop h l)))%nat.
Proof.
  induction l as [|r l IH] using rev_ind.
  { intros Hx. by apply elem_of_nil in Hx. }
  intros Hx. rewrite packLoop_snoc.
  destruct (decide (x = r)) as [->|Hne].
  - destruct (packStep_position (packLoop h l) r) as (p & Hp & Hb).
    exists p. split; [done|]. lia.
  - apply elem_of_app in Hx as [Hx|Hx%list_elem_of_singleton]; [|done].
    destruct (IH Hx) as (p & Hp & Hb). exists p.
    rewrite packStep_other by done. split; [done|].
    pose proof (packStep_length (packLoop h l) r). lia.
Qed.

(** X8. [calculateMempoolBlocks] writes [position] and nothing else: the
    store after the call differs from the one before at most in [position]
    fields, objects outside the input are untouched, and every object of the
    input ends with a position whose block index is the index of a returned
    block. *)
Theorem calculateMempoolBlocks_writes_positions (h : heap) (txs : list ref) :
  agree h (calculateMempoolBlocks h txs).2 ∧
  (∀ r, r ∉ txs → (calculateMempoolBlocks h txs).2 r = h r) ∧
  (∀ r, r ∈ txs →
     ∃ p, Tx.position ((calculateMempoolBlocks h txs).2 r) = Some p ∧
          (Position.block p < length (calculateMempoolBlocks h txs).1)%nat).
Proof.
  split; [apply calculateMempoolBlocks_agree|].
  assert ((calculateMempoolBlocks h txs).2 = store (packLoop h txs)) as ->
    by (unfold calculateMempoolBlocks; by destruct (transactions _)).
  split; [intros r Hr; by apply packLoop_untouched|].
  intros r Hr. destruct (packLoop_has_position h txs r Hr) as (p & Hp & Hb).
  exists p. split; [done|].
  destruct (packInv_packLoop h txs) as [_ _ _ _ _ He].
  unfold calculateMempoolBlocks.
  destruct (transactions (packLoop h txs)) as [|x cur]; simpl.
  - rewrite He in Hr by done. by apply elem_of_nil in Hr.
  - rewrite length_app. simpl. lia.
Qed.

(** The arrays built so far: the pushed ones and the current one. *)
Lemma packLoop_greedy h l :
  ∀ k g g',
    (packed (packLoop h l) ++ [transactions (packLoop h l)]) !! k = Some g →
    (packed (packLoop h l) ++ [transactions (packLoop h l)]) !! S k = Some g' →
    ∃ r rest, g' = r :: rest ∧
      BLOCK_WEIGHT_UNITS < sumWeights h g + Tx.weight (h r) ∧
      Z.of_nat k ≠ MEMPOOL_BLOCKS_AMOUNT - 1.
Proof.
  induction l as [|x l IH] using rev_ind.
  { intros k g g' _ Hk. simpl in Hk. by destruct k. }
  pose proof (packLoop_length_packed h l) as Hlen.
  destruct (packInv_packLoop h l) as [Ha _ _ Hw _ _].
  rewrite packLoop_snoc. unfold packStep.
  rewrite <- (agree_weight _ _ x Ha).
  destruct (bool_decide (_ ≤ _) || bool_decide (_ = _)) eqn:E; simpl.
  - intros k g g' Hk Hk'.
    assert (S k < length (packed (packLoop h l)) + 1)%nat as Hlt.
    { apply lookup_lt_Some in Hk'. by rewrite length_app in Hk'. }
    rewrite lookup_app_l in Hk by lia.
    destruct (decide (S k < length (packed (packLoop h l)))%nat) as [Hlt'|Hge].
    + rewrite lookup_app_l in Hk' by done.
      apply (IH k g g'); by rewrite lookup_app_l by lia.
    + assert (S k = length (packed (packLoop h l))) as Hk1 by lia.
      rewrite Hk1, list_lookup_middle in Hk' by done. injection Hk' as <-.
      destruct (IH k g (transactions (packLoop h l))) as (r & rest & Hr & Hgt & Hne).
      * by rewrite lookup_app_l by lia.
      * by rewrite Hk1, list_lookup_middle.
      * exists r, (rest ++ [x]). by rewrite Hr.
  - apply orb_false_iff in E as [E1%bool_decide_eq_false E2%bool_decide_eq_false].
    intros k g g' Hk Hk'.
    assert (S k < length (packed (packLoop h l)) + 2)%nat as Hlt.
    { apply lookup_lt_Some in Hk'. rewrite !length_app in Hk'. simpl in Hk'. lia. }
    destruct (decide (S k < length (packed (packLoop h l)) + 1)%nat) as [Hlt'|Hge].
    + apply (IH k g g').
      * rewrite lookup_app_l in Hk; [done|]. rewrite length_app. simpl. lia.
      * rewrite lookup_app_l in Hk'; [done|]. rewrite length_app. simpl. lia.
    + assert (k = length (packed (packLoop h l))) as -> by lia.
      rewrite lookup_app_l in Hk by (rewrite length_app; simpl; lia).
      rewrite list_lookup_middle in Hk by done. injection Hk as <-.
      rewrite (list_lookup_middle _ [] [x]) in Hk'
        by (rewrite length_app; simpl; lia).
      injection Hk' as <-. exists x, []. split; [done|].
      rewrite <- Hw, <- Hlen. split; [lia|done].
Qed.

Lemma packedBlocks_prefix h txs :
  ∀ k g, packedBlocks h txs !! k = Some g →
    (packed (packLoop h txs) ++ [transactions (packLoop h txs)]) !! k = Some g.
Proof.
  intros k g. unfold packedBlocks.
  destruct (transactions (packLoop h txs)); [|done].
  apply lookup_app_l_Some.
Qed.

(** X9. The packer is greedy: a block is closed only when the transaction
    that opens the next block did not fit in it, and never at the last
    permitted index.  For two consecutive blocks, the second one starts with
    a transaction whose weight added to the whole first block exceeds
    [BLOCK_WEIGHT_UNITS], and the index of the first is not
    [MEMPOOL_BLOCKS_AMOUNT - 1]. *)
Theorem packing_is_greedy (h : heap) (txs : list ref) (k : nat) (g g' : list ref) :
  packedBlocks h txs !! k = Some g →
  packedBlocks h txs !! S k = Some g' →
  ∃ r rest, g' = r :: rest ∧
    BLOCK_WEIGHT_UNITS < sumWeights h g + Tx.weight (h r) ∧
    Z.of_nat k ≠ MEMPOOL_BLOCKS_AMOUNT - 1.
Proof.
  intros Hk Hk'. apply (packLoop_greedy h txs k g g'); by apply packedBlocks_prefix.
Qed.

Lemma packLoop_blocks_prefix st l k b :
  mempoolBlocks st !! k = Some b →
  mempoolBlocks (foldl packStep st l) !! k = Some b.
Proof.
  intros Hk. induction l as [|x l IH] using rev_ind; [done|].
  rewrite foldl_app. simpl. unfold packStep at 1.
  destruct (_ || _); simpl; [done|]. by apply lookup_app_l_Some.
Qed.

(** X10. Only the first returned block can be empty, and it is empty exactly
    when the first transaction weighs more than [BLOCK_WEIGHT_UNITS] and
    more than one block is permitted: the loop then pushes the block it has
    not yet put anything in. *)
Theorem empty_block_only_first (h : heap) (txs : list ref) :
  (∀ k b, (calculateMempoolBlocks h txs).1 !! k = Some b → Block.nTx b = 0%nat →
     k = 0%nat ∧
     ∃ r rest, txs = r :: rest ∧ BLOCK_WEIGHT_UNITS < Tx.weight (h r) ∧
               MEMPOOL_BLOCKS_AMOUNT ≠ 1) ∧
  (∀ r rest, txs = r :: rest → BLOCK_WEIGHT_UNITS < Tx.weight (h r) →
     MEMPOOL_BLOCKS_AMOUNT ≠ 1 →
     ∃ b, (calculateMempoolBlocks h txs).1 !! 0%nat = Some b ∧
          Block.nTx b = 0%nat ∧ Block.transactionIds b = []).
Proof.
  split.
  - intros k b Hb Hn.
    destruct (calculateMempoolBlocks_packed h txs) as [HF Hcat].
    destruct (Forall2_lookup_l _ _ _ _ _ HF Hb) as (g & Hg & _ & _ & Hlen).
    rewrite Hn in Hlen. symmetry in Hlen. apply nil_length_inv in Hlen as ->.
    destruct k as [|k].
    + split; [done|].
      destruct (packedBlocks h txs) as [|g0 [|g1 gs]] eqn:Hpb; [done| |].
      * exfalso. injection Hg as ->. simpl in Hcat. subst txs.
        unfold packedBlocks in Hpb. simpl in Hpb.
        discriminate Hpb.
      * injection Hg as ->.
        destruct (packing_is_greedy h txs 0 [] g1) as (r & rest & -> & Hgt & Hne);
          [by rewrite Hpb..|].
        exists r, (rest ++ concat gs). split.
        -- by rewrite <- Hcat.
        -- simpl in Hgt, Hne. split; [lia|lia].
    + exfalso.
      assert (is_Some (packedBlocks h txs !! k)) as [g Hk].
      { apply lookup_lt_is_Some. apply lookup_lt_Some in Hg. lia. }
      by destruct (packing_is_greedy h txs k g [] Hk Hg) as (r & rest & ? & _).
  - intros r rest -> Hgt Hne.
    assert (mempoolBlocks (packLoop h (r :: rest)) !! 0%nat =
            Some (dataToMempoolBlocks h [])) as H0.
    { unfold packLoop. simpl. apply packLoop_blocks_prefix.
      unfold packStep. simpl.
      rewrite bool_decide_eq_false_2 by lia.
      rewrite bool_decide_eq_false_2 by lia. done. }
    exists (dataToMempoolBlocks h []). split; [|done].
    unfold calculateMempoolBlocks.
    destruct (transactions _); simpl; [done|]. by apply lookup_app_l_Some.
Qed.

(** X11. A mempool that fits in one block gives exactly one block: when the
    input is not empty, no weight is negative and the total weight is at
    most [BLOCK_WEIGHT_UNITS], the result is the single block built from the
    whole input. *)
Theorem single_block_when_fits (h : heap) (txs : list ref) :
  txs ≠ [] →
  (∀ r, r ∈ txs → 0 ≤ Tx.weight (h r)) →
  sumWeights h txs ≤ BLOCK_WEIGHT_UNITS →
  (calculateMempoolBlocks h txs).1 =
    [dataToMempoolBlocks (calculateMempoolBlocks h txs).2 txs] ∧
  packedBlocks h txs = [txs].
Proof.
  intros Hne Hpos Hfit.
  assert (∀ l k, txs = l ++ k →
            mempoolBlocks (packLoop h l) = [] ∧ packed (packLoop h l) = [] ∧
            transactions (packLoop h l) = l) as Hinv.
  { induction l as [|x l IH] using rev_ind; intros k Hk; [done|].
    destruct (IH ([x] ++ k)) as (Hb & Hp & Ht); [by rewrite Hk, <- app_assoc|].
    destruct (packInv_packLoop h l) as [Ha _ _ Hw _ _].
    rewrite Ht in Hw.
    rewrite packLoop_snoc. unfold packStep.
    rewrite <- (agree_weight _ _ x Ha), Hw.
    rewrite bool_decide_eq_true_2; simpl; [by rewrite Hb, Hp, Ht|].
    rewrite Hk, !sumWeights_app in Hfit. simpl in Hfit.
    assert (0 ≤ sumWeights h k).
    { apply sumWeights_nonneg. intros y Hy. apply Hpos. rewrite Hk.
      apply elem_of_app. by right. }
    lia. }
  destruct (Hinv txs []) as (Hb & Hp & Ht); [by rewrite app_nil_r|].
  unfold calculateMempoolBlocks, packedBlocks. rewrite Hb, Hp, Ht.
  by destruct txs.
Qed.

(** ** Further properties of [updateMempoolBlocks] *)

Lemma calculateMempoolDeltas_to_empty prevBlocks :
  calculateMempoolDeltas prevBlocks [] =
  map (λ p, Delta.mk [] (txids (Block.transactions p)) []) prevBlocks.
Proof.
  apply list_eq. intros i. rewrite list_lookup_fmap.
  destruct (prevBlocks !! i) as [p|] eqn:Hp; simpl.
  - rewrite calculateMempoolDeltas_lookup, Hp; [done|].
    apply lookup_lt_Some in Hp. lia.
  - apply lookup_ge_None. rewrite calculateMempoolDeltas_length.
    apply lookup_ge_None in Hp. simpl. lia.
Qed.

(** X12. An empty mempool gives an empty sequence of blocks and leaves the
    store alone; when the result is saved, the stored deltas report every
    txid of every previously stored block as removed. *)
Theorem updateMempoolBlocks_empty (saveResults : bool) (this : This.t) (h : heap) :
  updateMempoolBlocks [] saveResults this h =
  ([],
   if saveResults
   then This.mk []
          (map (λ p, Delta.mk [] (txids (Block.transactions p)) [])
               (This.mempoolBlocks this))
   else this,
   h).
Proof.
  unfold updateMempoolBlocks, finalSorted, resolveLoop, firstSorted. simpl.
  destruct saveResults; [|done]. by rewrite calculateMempoolDeltas_to_empty.
Qed.

Lemma resolveLoop_prefix memPool l h0 :
  keeps Tx.weight setRelativesAndGetCpfpInfo →
  (∀ r, r ∈ l → 0 ≤ Tx.weight (h0 r)) →
  ∃ n, (n ≤ length l)%nat ∧
    (foldl (resolveStep memPool) (0, h0, []) l).2 = take n l ∧
    (∀ i, (i < n)%nat → sumWeights h0 (take (S i) l) ≤ RESOLVE_WEIGHT_CAP) ∧
    (∀ i, (n ≤ i < length l)%nat →
       RESOLVE_WEIGHT_CAP < sumWeights h0 (take (S i) l)).
Proof.
  intros Hk. induction l as [|x l IH] using rev_ind; intros Hpos.
  { exists 0%nat. split; [done|]. split; [done|]. split; intros i Hi; simpl in *; lia. }
  destruct IH as (n & Hn & Hcalls & Hin & Hout).
  { intros r Hr. apply Hpos, elem_of_app. by left. }
  assert (0 ≤ Tx.weight (h0 x)) as Hx.
  { apply Hpos, elem_of_app. right. by apply list_elem_of_singleton. }
  assert (∀ i, (i < length l)%nat → take (S i) (l ++ [x]) = take (S i) l) as Htake.
  { intros i Hi. apply take_app_le. lia. }
  assert (take (S (length l)) (l ++ [x]) = l ++ [x]) as Hall.
  { apply firstn_all2. rewrite length_app. simpl. lia. }
  rewrite foldl_app. simpl. unfold resolveStep at 1.
  rewrite (resolveLoop_field Tx.weight), resolveLoop_sizes by done. simpl.
  case_decide as Hcap; simpl.
  - exists n. split; [rewrite length_app; simpl; lia|].
    split; [by rewrite Hcalls, take_app_le|]. split.
    + intros i Hi. rewrite Htake by lia. by apply Hin.
    + intros i Hi. rewrite length_app in Hi. simpl in Hi.
      destruct (decide (i < length l)%nat) as [Hlt|Hge].
      * rewrite Htake by done. apply Hout. lia.
      * replace i with (length l) by lia. rewrite Hall, sumWeights_app.
        simpl. lia.
  - assert (n = length l) as ->.
    { destruct (decide (n = length l)) as [|Hne]; [done|]. exfalso.
      assert (RESOLVE_WEIGHT_CAP < sumWeights h0 (take (S n) l)) as Hgt
        by (apply Hout; lia).
      rewrite <- (take_drop (S n) l) in Hcap at 1.
      rewrite sumWeights_app in Hcap.
      assert (0 ≤ sumWeights h0 (drop (S n) l)).
      { apply sumWeights_nonneg. intros r Hr. apply Hpos, elem_of_app. left.
        by eapply subseteq_drop. }
      lia. }
    exists (S (length l)). split; [rewrite length_app; simpl; lia|].
    split; [by rewrite Hcalls, Hall, firstn_all|]. split.
    + intros i Hi. destruct (decide (i < length l)%nat) as [Hlt|Hge].
      * rewrite Htake by done. by apply Hin.
      * replace i with (length l) by lia. rewrite Hall, sumWeights_app.
        simpl. lia.
    + intros i Hi. rewrite length_app in Hi. simpl in Hi. lia.
Qed.

(** X13. With weights that are not negative and a resolver that never
    assigns [weight], the transactions handed to the resolver are a prefix
    of the first-sorted array: the longest one whose running weight stays
    within [4000000 * 8]; every later transaction is skipped. *)
Theorem resolved_is_prefix (memPool : mempool) (h : heap) :
  keeps Tx.weight setRelativesAndGetCpfpInfo →
  (∀ r, r ∈ map snd memPool → 0 ≤ Tx.weight (h r)) →
  ∃ n, (n ≤ length (firstSorted memPool h))%nat ∧
    resolved memPool h = take n (firstSorted memPool h) ∧
    (∀ i, (i < n)%nat →
       sumWeights h (take (S i) (firstSorted memPool h)) ≤ RESOLVE_WEIGHT_CAP) ∧
    (∀ i, (n ≤ i < length (firstSorted memPool h))%nat →
       RESOLVE_WEIGHT_CAP < sumWeights h (take (S i) (firstSorted memPool h))).
Proof.
  intros Hk Hpos. unfold resolved, resolveLoop.
  destruct (resolveLoop_prefix memPool (firstSorted memPool h)
              (foldl clearStep h (map snd memPool)) Hk)
    as (n & Hn & Hcalls & Hin & Hout).
  { intros r Hr. destruct (clearLoop_fields h (map snd memPool) r) as (_ & -> & _).
    apply Hpos. by rewrite <- firstSorted_Permutation. }
  assert (∀ l, sumWeights (foldl clearStep h (map snd memPool)) l = sumWeights h l)
    as Hsum by (intros l; apply sumWeights_ext; intros x; apply clearLoop_fields).
  exists n. split; [done|]. split; [done|]. split.
  - intros i Hi. rewrite <- Hsum. by apply Hin.
  - intros i Hi. rewrite <- Hsum. by apply Hout.
Qed.

Lemma goesFirst_compareEffectiveFee h a b :
  goesFirst (compareEffectiveFee h) a b ↔ effectiveFeeOrder h a b.
Proof.
  unfold goesFirst, compareEffectiveFee, effectiveFeeOrder. case_decide as Heq.
  - destruct (String.ltb _ _).
    + split; [by right|]. intros _. by vm_compute.
    + split; [intros Hle; by vm_compute in Hle|].
      intros [Hlt|[_ ?]]; [|done]. rewrite Heq in Hlt.
      by apply Qclt_not_eq in Hlt.
  - rewrite Qc_sub_le_0. split.
    + intros Hle. left. apply Qcle_lt_or_eq in Hle as [?|?]; [done|].
      by destruct Heq.
    + intros [Hlt|[? _]]; [by apply Qclt_le_weak|done].
Qed.

Lemma effectiveFeeOrder_ext h h' a b :
  (∀ x, Tx.effectiveFeePerVsize (h x) = Tx.effectiveFeePerVsize (h' x)) →
  (∀ x, Tx.txid (h x) = Tx.txid (h' x)) →
  effectiveFeeOrder h a b → effectiveFeeOrder h' a b.
Proof. unfold effectiveFeeOrder. intros Hf Ht. by rewrite !Hf, !Ht. Qed.

Lemma resolveLoop_txid memPool h x :
  keeps Tx.txid setRelativesAndGetCpfpInfo →
  Tx.txid ((resolveLoop memPool h).1.2 x) = Tx.txid (h x).
Proof.
  intros Hk. unfold resolveLoop. rewrite (resolveLoop_field Tx.txid) by done.
  simpl. apply clearLoop_fields.
Qed.

(** X14. For a mempool keyed by txid and a resolver that leaves txids
    alone, the packing order is the order of the rates the call ends with:
    the array handed to the packer is a permutation of the mempool sorted
    by [effectiveFeePerVsize] descending, ties broken by ascending txid, and
    the [transactionIds] of the returned blocks follow it. *)
Theorem packing_order_sorted (memPool : mempool) (saveResults : bool)
    (this : This.t) (h : heap) :
  keeps Tx.txid setRelativesAndGetCpfpInfo →
  keyed_by_txid h memPool →
  finalSorted memPool h ≡ₚ map snd memPool ∧
  Sorted (effectiveFeeOrder (updateMempoolBlocks memPool saveResults this h).2)
         (finalSorted memPool h) ∧
  concat (map Block.transactionIds
            (updateMempoolBlocks memPool saveResults this h).1.1) =
    map (λ r, Tx.txid (h r)) (finalSorted memPool h).
Proof.
  intros Hk Hkeyed. split; [apply finalSorted_Permutation|].
  assert (agree (resolveLoop memPool h).1.2
                (updateMempoolBlocks memPool saveResults this h).2) as Ha.
  { rewrite updateMempoolBlocks_store. apply calculateMempoolBlocks_agree. }
  split.
  - unfold finalSorted, sort.
    eapply Sorted_weaken; [|apply Sorted_merge_sort_distinct].
    + intros a b Hab%goesFirst_compareEffectiveFee. revert Hab.
      apply effectiveFeeOrder_ext; intros x;
        [by apply agree_effectiveFeePerVsize|by apply agree_txid].
    + rewrite firstSorted_Permutation. by eapply keyed_by_txid_NoDup.
    + intros a b Ha' Hb' Hne. rewrite !goesFirst_compareEffectiveFee.
      rewrite firstSorted_Permutation in Ha', Hb'.
      set (h1 := (resolveLoop memPool h).1.2).
      assert (Tx.txid (h1 a) ≠ Tx.txid (h1 b)) as Hid.
      { unfold h1. rewrite !resolveLoop_txid by done.
        intros Heq. apply Hne. by eapply keyed_by_txid_inj. }
      unfold effectiveFeeOrder.
      destruct (Qclt_le_dec (Tx.effectiveFeePerVsize (h1 b))
                            (Tx.effectiveFeePerVsize (h1 a)))
        as [Hlt|Hle]; [by left; left|].
      apply Qcle_lt_or_eq in Hle as [Hlt|Heq]; [by right; left|].
      destruct (ltb_total _ _ Hid) as [Hs|Hs]; [left|right]; right; by rewrite Heq.
  - rewrite updateMempoolBlocks_blocks, calculateMempoolBlocks_transactionIds.
    apply map_ext. intros r. by apply resolveLoop_txid.
Qed.

Lemma agree_cpfpChecked h h' r :
  agree h h' → Tx.cpfpChecked (h r) = Tx.cpfpChecked (h' r).
Proof. intros H. apply (f_equal Tx.cpfpChecked (H r)). Qed.

Lemma agree_ancestors h h' r :
  agree h h' → Tx.ancestors (h r) = Tx.ancestors (h' r).
Proof. intros H. apply (f_equal Tx.ancestors (H r)). Qed.

Lemma clearLoop_flags h l x :
  x ∈ l →
  Tx.cpfpChecked (foldl clearStep h l x) = Some false ∧
  Tx.ancestors (foldl clearStep h l x) = Some [] ∧
  Tx.bestDescendant (foldl clearStep h l x) = None.
Proof.
  induction l as [|r l IH] using rev_ind.
  { intros Hx. by apply elem_of_nil in Hx. }
  intros Hx. rewrite foldl_app. simpl.
  destruct (decide (x = r)) as [->|Hne].
  - unfold clearStep. rewrite !assign_eq. simpl.
    case_decide; rewrite ?assign_eq; simpl; by rewrite ?assign_eq.
  - rewrite clearStep_other by done. apply IH.
    apply elem_of_app in Hx as [Hx|Hx%list_elem_of_singleton]; done.
Qed.

Lemma resolveLoop_other_field {A} (field : Tx.t → A) memPool l acc x :
  keeps_other field setRelativesAndGetCpfpInfo →
  x ∉ (foldl (resolveStep memPool) acc l).2 →
  field ((foldl (resolveStep memPool) acc l).1.2 x) = field (acc.1.2 x).
Proof.
  intros Hr. induction l as [|r l IH] using rev_ind; [done|].
  rewrite foldl_app. simpl. unfold resolveStep at 1 3.
  case_decide; simpl; [done|].
  intros [Hx Hne%not_elem_of_cons]%not_elem_of_app.
  rewrite Hr by apply Hne. by apply IH.
Qed.

Lemma beyond_cap_not_resolved memPool h i r :
  keeps Tx.weight setRelativesAndGetCpfpInfo →
  NoDup (map snd memPool) →
  firstSorted memPool h !! i = Some r →
  RESOLVE_WEIGHT_CAP < sumWeights h (take (S i) (firstSorted memPool h)) →
  r ∉ resolved memPool h.
Proof.
  intros Hkw Hnd Hi Hcap.
  unfold resolved, resolveLoop. intros (j & Hj & Hs)%resolveLoop_calls; [|done].
  assert (NoDup (firstSorted memPool h)) as Hnd'
    by (by rewrite firstSorted_Permutation).
  assert (j = i) as -> by apply (NoDup_lookup _ j i r Hnd' Hj Hi).
  erewrite sumWeights_ext in Hs; [|intros x; apply clearLoop_fields].
  lia.
Qed.

(** X15. For distinct transaction objects and a resolver that never
    assigns [weight] and assigns [cpfpChecked] and [ancestors] only on the
    transaction it is called on: a transaction skipped by the weight cap
    ends the call marked as not checked ([cpfpChecked = false]) with an
    empty [ancestors] list, whatever it held before. *)
Theorem skipped_transaction_flags (memPool : mempool) (saveResults : bool)
    (this : This.t) (h : heap) (i : nat) (r : ref) :
  keeps Tx.weight setRelativesAndGetCpfpInfo →
  keeps_other Tx.cpfpChecked setRelativesAndGetCpfpInfo →
  keeps_other Tx.ancestors setRelativesAndGetCpfpInfo →
  NoDup (map snd memPool) →
  firstSorted memPool h !! i = Some r →
  RESOLVE_WEIGHT_CAP < sumWeights h (take (S i) (firstSorted memPool h)) →
  Tx.cpfpChecked ((updateMempoolBlocks memPool saveResults this h).2 r) =
    Some false ∧
  Tx.ancestors ((updateMempoolBlocks memPool saveResults this h).2 r) = Some [].
Proof.
  intros Hkw Hc Han Hnd Hi Hcap.
  pose proof (beyond_cap_not_resolved memPool h i r Hkw Hnd Hi Hcap) as Hnot.
  assert (agree (resolveLoop memPool h).1.2
                (updateMempoolBlocks memPool saveResults this h).2) as Ha.
  { rewrite updateMempoolBlocks_store. apply calculateMempoolBlocks_agree. }
  assert (r ∈ map snd memPool) as Hr.
  { rewrite <- firstSorted_Permutation. by eapply list_elem_of_lookup_2. }
  rewrite <- (agree_cpfpChecked _ _ r Ha), <- (agree_ancestors _ _ r Ha).
  unfold resolveLoop. rewrite !resolveLoop_other_field by done. simpl.
  by destruct (clearLoop_flags h (map snd memPool) r Hr) as (-> & -> & _).
Qed.

(** ** Properties of [processBlockTemplates] *)

Lemma assign_keeps {A} (field : Tx.t → A) r f (h : heap) x :
  (∀ tx, field (f tx) = field tx) → field (assign r f h x) = field (h x).
Proof.
  intros Hf. destruct (decide (r = x)) as [->|Hne].
  - by rewrite assign_eq.
  - by rewrite assign_ne.
Qed.

Lemma enrichStep_dead memPool clusters k acc tx :
  liveRef memPool tx = None → enrichStep memPool clusters k acc tx = acc.
Proof. unfold liveRef, enrichStep. by intros ->. Qed.

Lemma enrichStep_other memPool clusters k acc tx r x :
  liveRef memPool tx = Some r → x ≠ r →
  (enrichStep memPool clusters k acc tx).2 x = acc.2 x.
Proof.
  unfold liveRef, enrichStep. intros -> Hne. simpl.
  rewrite assign_ne by done.
  destruct (_ ≫= _); destruct (Thread.effectiveFeePerVsize tx);
    by rewrite ?assign_ne by done.
Qed.

Lemma enrichStep_field {A} (field : Tx.t → A) memPool clusters k acc tx x :
  (∀ v t, field (Tx.set_position v t) = field t) →
  (∀ v t, field (Tx.set_effectiveFeePerVsize v t) = field t) →
  (∀ v t, field (Tx.set_ancestors v t) = field t) →
  (∀ v t, field (Tx.set_descendants v t) = field t) →
  (∀ v t, field (Tx.set_bestDescendant v t) = field t) →
  (∀ v t, field (Tx.set_cpfpChecked v t) = field t) →
  field ((enrichStep memPool clusters k acc tx).2 x) = field (acc.2 x).
Proof.
  intros H1 H2 H3 H4 H5 H6. unfold enrichStep.
  destruct (if truthy _ then _ else _) as [r|]; [|done]. simpl.
  rewrite assign_keeps by done.
  destruct (_ ≫= _); destruct (Thread.effectiveFeePerVsize tx);
    by rewrite ?assign_keeps by done.
Qed.

Lemma enrichBlock_field {A} (field : Tx.t → A) memPool clusters k acc block x :
  (∀ v t, field (Tx.set_position v t) = field t) →
  (∀ v t, field (Tx.set_effectiveFeePerVsize v t) = field t) →
  (∀ v t, field (Tx.set_ancestors v t) = field t) →
  (∀ v t, field (Tx.set_descendants v t) = field t) →
  (∀ v t, field (Tx.set_bestDescendant v t) = field t) →
  (∀ v t, field (Tx.set_cpfpChecked v t) = field t) →
  field ((foldl (enrichStep memPool clusters k) acc block).2 x) = field (acc.2 x).
Proof.
  intros H1 H2 H3 H4 H5 H6.
  induction block as [|tx block IH] using rev_ind; [done|].
  rewrite foldl_app. simpl. by rewrite enrichStep_field.
Qed.

Lemma enrichBlocks_field {A} (field : Tx.t → A) memPool clusters k blocks h x :
  (∀ v t, field (Tx.set_position v t) = field t) →
  (∀ v t, field (Tx.set_effectiveFeePerVsize v t) = field t) →
  (∀ v t, field (Tx.set_ancestors v t) = field t) →
  (∀ v t, field (Tx.set_descendants v t) = field t) →
  (∀ v t, field (Tx.set_bestDescendant v t) = field t) →
  (∀ v t, field (Tx.set_cpfpChecked v t) = field t) →
  field (enrichBlocks memPool clusters k blocks h x) = field (h x).
Proof.
  intros H1 H2 H3 H4 H5 H6. revert k h.
  induction blocks as [|block blocks IH]; intros k h; [done|].
  simpl. by rewrite IH, enrichBlock_field.
Qed.

Lemma enrichBlocks_sameData memPool clusters k blocks h :
  sameData h (enrichBlocks memPool clusters k blocks h).
Proof. intros r. repeat split; by apply enrichBlocks_field. Qed.

Lemma enrichBlock_untouched memPool clusters k acc block x :
  (∀ tx, tx ∈ block → liveRef memPool tx ≠ Some x) →
  (foldl (enrichStep memPool clusters k) acc block).2 x = acc.2 x.
Proof.
  induction block as [|tx block IH] using rev_ind; intros Hx; [done|].
  rewrite foldl_app. simpl.
  assert (liveRef memPool tx ≠ Some x) as Htx.
  { apply Hx, elem_of_app. right. by apply list_elem_of_singleton. }
  destruct (liveRef memPool tx) as [r|] eqn:E.
  - rewrite (enrichStep_other _ _ _ _ _ r) by congruence.
    apply IH. intros t Ht. apply Hx, elem_of_app. by left.
  - rewrite enrichStep_dead by done.
    apply IH. intros t Ht. apply Hx, elem_of_app. by left.
Qed.

Lemma enrichBlocks_untouched memPool clusters k blocks h x :
  (∀ block tx, block ∈ blocks → tx ∈ block → liveRef memPool tx ≠ Some x) →
  enrichBlocks memPool clusters k blocks h x = h x.
Proof.
  revert k h. induction blocks as [|block blocks IH]; intros k h Hx; [done|].
  simpl. rewrite IH by (intros b tx Hb; apply Hx; by right).
  apply enrichBlock_untouched. intros tx Htx. apply (Hx block); [left|done].
Qed.

(** X16. [processBlockTemplates] keeps the transaction data: after the call
    every object has the [txid], [fee], [weight], [vsize], [size],
    [feePerVsize] and [vin] it had before, and an object that no worker
    transaction stands for (by a non-empty txid that is a key of the
    mempool) is not written at all. *)
Theorem processBlockTemplates_frame (memPool : mempool)
    (blocks : list (list Thread.t)) (clusters : gmap string (list string))
    (saveResults : bool) (this : This.t) (h : heap) :
  sameData h (processBlockTemplates memPool blocks clusters saveResults this h).2 ∧
  ∀ x, (∀ block tx, block ∈ blocks → tx ∈ block → liveRef memPool tx ≠ Some x) →
       (processBlockTemplates memPool blocks clusters saveResults this h).2 x = h x.
Proof.
  unfold processBlockTemplates. destruct saveResults; simpl.
  - split; [apply enrichBlocks_sameData|]. intros x Hx.
    by apply enrichBlocks_untouched.
  - split; [apply enrichBlocks_sameData|]. intros x Hx.
    by apply enrichBlocks_untouched.
Qed.

Lemma mempoolGet_keyed h memPool k r :
  keyed_by_txid h memPool → mempoolGet memPool k = Some r → Tx.txid (h r) = k.
Proof.
  intros [_ Hk] Hget. apply Hk. unfold mempoolGet in Hget.
  by apply elem_of_list_to_map_2 in Hget.
Qed.

Lemma live_transactionIds h h' memPool (block : list Thread.t) :
  keyed_by_txid h memPool → sameData h h' →
  map (λ r, Tx.txid (h' r))
      (omap (λ tx, mempoolGet memPool (Thread.txid tx)) block) =
  filter (λ k, is_Some (mempoolGet memPool k)) (map Thread.txid block).
Proof.
  intros Hk Hs. induction block as [|tx block IH]; [done|].
  rewrite map_cons, filter_cons.
  change (omap (λ tx, mempoolGet memPool (Thread.txid tx)) (tx :: block))
    with (match mempoolGet memPool (Thread.txid tx) with
          | Some r => r :: omap (λ tx, mempoolGet memPool (Thread.txid tx)) block
          | None => omap (λ tx, mempoolGet memPool (Thread.txid tx)) block
          end).
  destruct (mempoolGet memPool (Thread.txid tx)) as [r|] eqn:E.
  - rewrite decide_True by done. rewrite map_cons, IH. f_equal.
    destruct (Hs r) as (-> & _). by eapply mempoolGet_keyed.
  - rewrite decide_False by (by intros [? ?]). done.
Qed.

(** X17. For a mempool keyed by txid, [processBlockTemplates] returns one
    block per block of the worker, empty ones included, and the
    [transactionIds] of each are the txids of the worker's block that are
    keys of the mempool, in the worker's order: transactions that left the
    mempool are dropped. *)
Theorem processBlockTemplates_transactionIds (memPool : mempool)
    (blocks : list (list Thread.t)) (clusters : gmap string (list string))
    (saveResults : bool) (this : This.t) (h : heap) :
  keyed_by_txid h memPool →
  Forall2 (λ b block,
             Block.transactionIds b =
               filter (λ k, is_Some (mempoolGet memPool k))
                      (map Thread.txid block) ∧
             Block.nTx b = length (Block.transactionIds b))
          (processBlockTemplates memPool blocks clusters saveResults this h).1.1
          blocks.
Proof.
  intros Hk.
  assert ((processBlockTemplates memPool blocks clusters saveResults this h).1.1 =
          map (λ transactions,
                 dataToMempoolBlocks (enrichBlocks memPool clusters 0 blocks h)
                   (omap (λ tx, mempoolGet memPool (Thread.txid tx)) transactions))
              blocks) as ->
    by (unfold processBlockTemplates; by destruct saveResults).
  pose proof (enrichBlocks_sameData memPool clusters 0 blocks h) as Hs.
  generalize dependent (enrichBlocks memPool clusters 0 blocks h). intros h' Hs.
  induction blocks as [|block blocks IH]; constructor; [|done].
  unfold dataToMempoolBlocks. simpl. rewrite length_map.
  split; [by eapply live_transactionIds|done].
Qed.

Lemma clusterStep_relative memPool h pivot acc t :
  clusterStep memPool h pivot acc t =
  match clusterRelative memPool h t with
  | None => acc
  | Some relative =>
      if decide (t = pivot) then (acc.1.1, acc.1.2, true)
      else if acc.2 then (acc.1.1, acc.1.2 ++ [relative], acc.2)
           else (acc.1.1 ++ [relative], acc.1.2, acc.2)
  end.
Proof.
  unfold clusterStep, clusterRelative.
  destruct (truthy t); [|done]. by destruct (mempoolGet memPool t).
Qed.

Lemma omap_cons_match {A B} (f : A → option B) x l :
  omap f (x :: l) = match f x with Some y => y :: omap f l | None => omap f l end.
Proof. done. Qed.

Lemma clusterStep_before memPool h pivot l a d :
  pivot ∉ l ∨ clusterRelative memPool h pivot = None →
  foldl (clusterStep memPool h pivot) (a, d, false) l =
  (a ++ omap (clusterRelative memPool h) l, d, false).
Proof.
  revert a. induction l as [|t l IH]; intros a Hp; [by rewrite app_nil_r|].
  assert (pivot ∉ l ∨ clusterRelative memPool h pivot = None) as Hl.
  { destruct Hp as [Hp|Hp]; [left|by right]. by apply not_elem_of_cons in Hp as [_ ?]. }
  simpl foldl. rewrite clusterStep_relative, omap_cons_match.
  destruct (clusterRelative memPool h t) as [y|] eqn:Hy; [|by apply IH].
  case_decide as Heq.
  - exfalso. subst t. destruct Hp as [Hp|Hp].
    + apply Hp. left.
    + by rewrite Hp in Hy.
  - simpl. rewrite IH by done. by rewrite <- app_assoc.
Qed.

Lemma clusterStep_after memPool h pivot l a d :
  is_Some (clusterRelative memPool h pivot) →
  foldl (clusterStep memPool h pivot) (a, d, true) l =
  (a, d ++ omap (clusterRelative memPool h) (filter (λ t, t ≠ pivot) l), true).
Proof.
  intros Hp. revert d. induction l as [|t l IH]; intros d; [by rewrite app_nil_r|].
  simpl foldl. rewrite clusterStep_relative, filter_cons.
  destruct (decide (t = pivot)) as [->|Hne].
  - rewrite decide_False by (by intros H; apply H).
    destruct Hp as [y Hy]. rewrite Hy. apply IH.
  - rewrite decide_True by done. rewrite omap_cons_match.
    destruct (clusterRelative memPool h t) as [y|]; [|by apply IH].
    simpl. rewrite IH. by rewrite <- app_assoc.
Qed.

(** X18. The walk over a cluster splits it around the transaction itself:
    the members listed before its first occurrence become [ancestors], the
    members listed after it become [descendants], each as
    [{txid, fee, weight}] read from the mempool, and members that are not
    in the mempool are left out.  When the transaction is not in its
    cluster, every member becomes an ancestor. *)
Theorem cluster_split (memPool : mempool) (h : heap) (pivot : string)
    (cluster : list string) :
  (pivot ∉ cluster →
   foldl (clusterStep memPool h pivot) ([], [], false) cluster =
   (omap (clusterRelative memPool h) cluster, [], false)) ∧
  (∀ before after,
     cluster = before ++ pivot :: after → pivot ∉ before →
     is_Some (clusterRelative memPool h pivot) →
     foldl (clusterStep memPool h pivot) ([], [], false) cluster =
     (omap (clusterRelative memPool h) before,
      omap (clusterRelative memPool h) (filter (λ t, t ≠ pivot) after),
      true)).
Proof.
  split.
  - intros Hp. by rewrite clusterStep_before by (by left).
  - intros before after -> Hb Hp. rewrite foldl_app.
    rewrite clusterStep_before by (by left). simpl foldl.
    rewrite clusterStep_relative.
    destruct Hp as [y Hy]. rewrite Hy. rewrite decide_True by done. simpl.
    by rewrite clusterStep_after by (by exists y).
Qed.

Lemma clusterStep_ext memPool h1 h2 pivot acc l :
  (∀ x, Tx.fee (h1 x) = Tx.fee (h2 x) ∧ Tx.weight (h1 x) = Tx.weight (h2 x)) →
  foldl (clusterStep memPool h1 pivot) acc l =
  foldl (clusterStep memPool h2 pivot) acc l.
Proof.
  intros H. revert acc. induction l as [|t l IH]; intros acc; [done|].
  simpl. rewrite IH. f_equal. unfold clusterStep.
  destruct (if truthy t then _ else _) as [p|]; [|done].
  by destruct (H p) as [-> ->].
Qed.

Lemma enrichStep_written memPool clusters h k acc tx r :
  liveRef memPool tx = Some r → sameData h acc.2 →
  (enrichStep memPool clusters k acc tx).1 = (acc.1 + Tx.vsize (h r))%Qc ∧
  enriched memPool clusters h k acc.1 tx (acc.2 r)
           ((enrichStep memPool clusters k acc tx).2 r).
Proof.
  unfold liveRef, enrichStep, enriched. intros -> Hs. cbv zeta.
  set (h1 := assign r (Tx.set_position _) acc.2).
  set (h2 := match Thread.effectiveFeePerVsize tx with
             | Some e => assign r (Tx.set_effectiveFeePerVsize e) h1
             | None => h1
             end).
  assert (∀ x, Tx.fee (h2 x) = Tx.fee (h x) ∧ Tx.weight (h2 x) = Tx.weight (h x))
    as Hfw.
  { intros x. destruct (Hs x) as (_ & Hf & Hw & _). unfold h2, h1.
    destruct (Thread.effectiveFeePerVsize tx);
      rewrite ?(assign_keeps Tx.fee), ?(assign_keeps Tx.weight) by done;
      by rewrite Hf, Hw. }
  assert (h1 r = Tx.set_position
                   (Some (Position.mk k (acc.1 + Tx.vsize (acc.2 r) / num 2)%Qc))
                   (acc.2 r)) as H1.
  { unfold h1. by rewrite assign_eq. }
  assert (h2 r = match Thread.effectiveFeePerVsize tx with
                 | Some e => Tx.set_effectiveFeePerVsize e (h1 r)
                 | None => h1 r
                 end) as H2.
  { unfold h2. destruct (Thread.effectiveFeePerVsize tx); [|done].
    by rewrite assign_eq. }
  split.
  - simpl. rewrite H1. simpl. by destruct (Hs r) as (_ & _ & _ & -> & _).
  - destruct (Thread.cpfpRoot tx ≫= _) as [cluster|].
    + rewrite (clusterStep_ext memPool h2 h) by exact Hfw.
      simpl. rewrite !assign_eq. simpl. rewrite H2, H1.
      by destruct (Thread.effectiveFeePerVsize tx).
    + simpl. rewrite assign_eq. simpl. rewrite H2, H1.
      by destruct (Thread.effectiveFeePerVsize tx).
Qed.

Lemma enrichBlock_sameData memPool clusters h k acc block :
  sameData h acc.2 →
  sameData h (foldl (enrichStep memPool clusters k) acc block).2.
Proof.
  intros Hs x. destruct (Hs x) as (H1 & H2 & H3 & H4 & H5 & H6 & H7).
  rewrite <- H1, <- H2, <- H3, <- H4, <- H5, <- H6, <- H7.
  repeat split; by apply enrichBlock_field.
Qed.

Lemma enrichBlock_running memPool clusters h k acc block :
  sameData h acc.2 →
  (foldl (enrichStep memPool clusters k) acc block).1 =
  (acc.1 + sumVsizes h (omap (liveRef memPool) block))%Qc.
Proof.
  intros Hs. induction block as [|t block IH] using rev_ind.
  - simpl. ring.
  - rewrite foldl_app, omap_app, sumVsizes_app. simpl foldl.
    destruct (liveRef memPool t) as [r|] eqn:E.
    + destruct (enrichStep_written memPool clusters h k
                  (foldl (enrichStep memPool clusters k) acc block) t r E)
        as [-> _]; [by apply enrichBlock_sameData|].
      rewrite IH. cbn. rewrite E. simpl. ring.
    + rewrite enrichStep_dead by done. rewrite IH. cbn. rewrite E. simpl. ring.
Qed.

Lemma enrichBlock_written memPool clusters h k acc block j tx r :
  sameData h acc.2 →
  NoDup (omap (liveRef memPool) block) →
  block !! j = Some tx → liveRef memPool tx = Some r →
  enriched memPool clusters h k
    (acc.1 + sumVsizes h (omap (liveRef memPool) (take j block)))%Qc tx (acc.2 r)
    ((foldl (enrichStep memPool clusters k) acc block).2 r).
Proof.
  intros Hs. induction block as [|t block IH] using rev_ind; intros Hnd Hj Hr;
    [done|].
  rewrite omap_app in Hnd. apply NoDup_app in Hnd as (Hnd & Hdis & _).
  rewrite foldl_app. simpl foldl.
  destruct (decide (j < length block)%nat) as [Hlt|Hge].
  - rewrite lookup_app_l in Hj by done.
    rewrite take_app_le by lia.
    assert (r ∈ omap (liveRef memPool) block) as Hin.
    { apply list_elem_of_omap. exists tx. split; [|done].
      by eapply list_elem_of_lookup_2. }
    destruct (liveRef memPool t) as [r'|] eqn:E.
    + rewrite (enrichStep_other _ _ _ _ _ r'); [by apply IH|done|].
      intros ->. apply (Hdis r' Hin). cbn. rewrite E. left.
    + rewrite enrichStep_dead by done. by apply IH.
  - assert (j = length block) as ->.
    { apply lookup_lt_Some in Hj. rewrite length_app in Hj. simpl in Hj. lia. }
    rewrite list_lookup_middle in Hj by done. injection Hj as ->.
    rewrite take_app_le, take_ge by lia.
    assert (r ∉ omap (liveRef memPool) block) as Hnin.
    { intros Hin. apply (Hdis r Hin). cbn. rewrite Hr. left. }
    destruct (enrichStep_written memPool clusters h k
                (foldl (enrichStep memPool clusters k) acc block) tx r Hr)
      as [_ Hw]; [by apply enrichBlock_sameData|].
    rewrite (enrichBlock_running memPool clusters h) in Hw by done.
    rewrite (enrichBlock_untouched memPool clusters k acc block r) in Hw; [done|].
    intros t Ht Hl. apply Hnin, list_elem_of_omap. by exists t.
Qed.

Lemma enrichBlocks_written memPool clusters h k0 blocks h0 k block j tx r :
  sameData h h0 →
  NoDup (concat (map (omap (liveRef memPool)) blocks)) →
  blocks !! k = Some block → block !! j = Some tx →
  liveRef memPool tx = Some r →
  enriched memPool clusters h (k0 + k)
    (sumVsizes h (omap (liveRef memPool) (take j block))) tx (h0 r)
    (enrichBlocks memPool clusters k0 blocks h0 r).
Proof.
  revert k0 h0 k. induction blocks as [|b blocks IH]; intros k0 h0 k Hs Hnd Hk Hj Hr;
    [done|].
  simpl in Hnd. apply NoDup_app in Hnd as (Hb & Hdis & Hrest).
  assert (r ∈ omap (liveRef memPool) block) as Hin.
  { apply list_elem_of_omap. exists tx. split; [|done].
    by eapply list_elem_of_lookup_2. }
  simpl enrichBlocks. destruct k as [|k]; simpl in Hk.
  - injection Hk as ->. rewrite Nat.add_0_r.
    rewrite enrichBlocks_untouched.
    + pose proof (enrichBlock_written memPool clusters h k0 (0%Qc, h0) block j tx r
                    Hs Hb Hj Hr) as Hw.
      simpl in Hw. by rewrite Qcplus_0_l in Hw.
    + intros b' t Hb' Ht Hl. apply (Hdis r Hin).
      apply list_elem_of_In, in_concat. exists (omap (liveRef memPool) b').
      split.
      * apply in_map. by apply list_elem_of_In.
      * apply list_elem_of_In, list_elem_of_omap. by exists t.
  - replace (k0 + S k)%nat with (S k0 + k)%nat by lia.
    assert (r ∉ omap (liveRef memPool) b) as Hnin.
    { intros Hrb. apply (Hdis r Hrb).
      apply list_elem_of_In, in_concat. exists (omap (liveRef memPool) block).
      split; [|by apply list_elem_of_In].
      apply in_map. apply list_elem_of_In. by eapply list_elem_of_lookup_2. }
    pose proof (IH (S k0) (foldl (enrichStep memPool clusters k0) (0%Qc, h0) b).2 k
                  (enrichBlock_sameData memPool clusters h k0 (0%Qc, h0) b Hs)
                  Hrest Hk Hj Hr) as Hw.
    rewrite (enrichBlock_untouched memPool clusters k0 (0%Qc, h0) b r) in Hw;
      [exact Hw|].
    intros t Ht Hl. apply Hnin, list_elem_of_omap. by exists t.
Qed.

(** X19. What [processBlockTemplates] writes on a transaction.  When no two
    worker transactions stand for the same mempool object, the object of the
    [j]-th transaction of block [k] ends with: position [{k, v}] where [v] is
    the vsize of the mempool transactions before it in its block plus half
    its own; the worker's [effectiveFeePerVsize] when the worker gave one and
    its former rate otherwise; the worker's [cpfpChecked]; and, when its
    [cpfpRoot] names a cluster, the ancestors and descendants of the walk
    over that cluster and no best descendant, these three fields being left
    as they were when it names none. *)
Theorem processBlockTemplates_writes (memPool : mempool)
    (blocks : list (list Thread.t)) (clusters : gmap string (list string))
    (saveResults : bool) (this : This.t) (h : heap)
    (k j : nat) (block : list Thread.t) (tx : Thread.t) (r : ref) :
  NoDup (concat (map (omap (liveRef memPool)) blocks)) →
  blocks !! k = Some block → block !! j = Some tx →
  liveRef memPool tx = Some r →
  let after :=
    (processBlockTemplates memPool blocks clusters saveResults this h).2 r in
  Tx.position after =
    Some (Position.mk k
            (sumVsizes h (omap (liveRef memPool) (take j block))
             + Tx.vsize (h r) / num 2)%Qc) ∧
  Tx.effectiveFeePerVsize after =
    default (Tx.effectiveFeePerVsize (h r)) (Thread.effectiveFeePerVsize tx) ∧
  Tx.cpfpChecked after = Thread.cpfpChecked tx ∧
  match (root ← Thread.cpfpRoot tx;
         if truthy root then clusters !! root else None) with
  | Some cluster =>
      let res := foldl (clusterStep memPool h (Thread.txid tx))
                       ([], [], false) cluster in
      Tx.ancestors after = Some res.1.1 ∧
      Tx.descendants after = Some res.1.2 ∧
      Tx.bestDescendant after = None
  | None =>
      Tx.ancestors after = Tx.ancestors (h r) ∧
      Tx.descendants after = Tx.descendants (h r) ∧
      Tx.bestDescendant after = Tx.bestDescendant (h r)
  end.
Proof.
  intros Hnd Hk Hj Hr after.
  assert (after = enrichBlocks memPool clusters 0 blocks h r) as ->.
  { unfold after, processBlockTemplates. by destruct saveResults. }
  by apply (enrichBlocks_written memPool clusters h 0 blocks h k block j tx r).
Qed.

Lemma truthy_false s : truthy s = false → s = "".
Proof. by destruct s. Qed.

Lemma stale_is_dead memPool tx :
  ¬ (truthy (Thread.txid tx) = true ∧
     is_Some (mempoolGet memPool (Thread.txid tx))) →
  liveRef memPool tx = None.
Proof.
  intros Hd. unfold liveRef. destruct (truthy _) eqn:Ht; [|done].
  destruct (mempoolGet _ _) eqn:Hg; [|done].
  exfalso. apply Hd. split; [done|by eexists].
Qed.

Lemma enrichBlock_filter memPool clusters k acc block :
  foldl (enrichStep memPool clusters k) acc
        (filter (λ tx, truthy (Thread.txid tx) = true ∧
                       is_Some (mempoolGet memPool (Thread.txid tx))) block) =
  foldl (enrichStep memPool clusters k) acc block.
Proof.
  revert acc. induction block as [|tx block IH]; intros acc; [done|].
  rewrite filter_cons. case_decide as Hd; simpl; [apply IH|].
  rewrite IH. f_equal. symmetry. by apply enrichStep_dead, stale_is_dead.
Qed.

Lemma enrichBlocks_filter memPool clusters k blocks h :
  enrichBlocks memPool clusters k (staleFilter memPool blocks) h =
  enrichBlocks memPool clusters k blocks h.
Proof.
  revert k h. induction blocks as [|b blocks IH]; intros k h; [done|].
  unfold staleFilter in *. simpl. by rewrite enrichBlock_filter, IH.
Qed.

Lemma lookup_filter memPool (block : list Thread.t) :
  mempoolGet memPool "" = None →
  omap (λ tx, mempoolGet memPool (Thread.txid tx))
       (filter (λ tx, truthy (Thread.txid tx) = true ∧
                      is_Some (mempoolGet memPool (Thread.txid tx))) block) =
  omap (λ tx, mempoolGet memPool (Thread.txid tx)) block.
Proof.
  intros He. induction block as [|tx block IH]; [done|].
  rewrite filter_cons. case_decide as Hd.
  - by rewrite !omap_cons_match, IH.
  - rewrite (omap_cons_match _ tx), IH.
    destruct (mempoolGet memPool (Thread.txid tx)) as [r|] eqn:Hg; [|done].
    exfalso. destruct (truthy (Thread.txid tx)) eqn:Ht.
    + apply Hd. split; [done|by eexists].
    + apply truthy_false in Ht. rewrite Ht in Hg. by rewrite He in Hg.
Qed.

(** X20. The filter of stale transactions that [$makeBlockTemplates] and
    [$updateBlockTemplates] apply to the worker's reply does not change what
    [processBlockTemplates] returns, publishes and writes, as long as the
    empty string is not a key of the mempool: [processBlockTemplates] skips
    the stale transactions itself. *)
Theorem staleFilter_redundant (memPool : mempool)
    (blocks : list (list Thread.t)) (clusters : gmap string (list string))
    (saveResults : bool) (this : This.t) (h : heap) :
  mempoolGet memPool "" = None →
  processBlockTemplates memPool (staleFilter memPool blocks) clusters
                        saveResults this h =
  processBlockTemplates memPool blocks clusters saveResults this h.
Proof.
  intros He. unfold processBlockTemplates. rewrite enrichBlocks_filter.
  assert (map (λ transactions,
                 dataToMempoolBlocks (enrichBlocks memPool clusters 0 blocks h)
                   (omap (λ tx, mempoolGet memPool (Thread.txid tx)) transactions))
              (staleFilter memPool blocks) =
          map (λ transactions,
                 dataToMempoolBlocks (enrichBlocks memPool clusters 0 blocks h)
                   (omap (λ tx, mempoolGet memPool (Thread.txid tx)) transactions))
              blocks) as ->; [|done].
  unfold staleFilter. rewrite map_map. apply map_ext. intros b.
  by rewrite lookup_filter.
Qed.

(** ** The published summaries *)

Lemma calculateMempoolBlocks_count h txs :
  foldr (λ b acc, (Block.nTx b + acc)%nat) 0%nat (calculateMempoolBlocks h txs).1 =
  length txs.
Proof.
  destruct (calculateMempoolBlocks_packed h txs) as [HF Hc].
  rewrite <- Hc at 2. clear Hc.
  induction HF as [|b g bs gs (_ & _ & Hn) _ IH]; [done|].
  simpl. by rewrite length_app, Hn, IH.
Qed.

(** X21. After a saving call of [updateMempoolBlocks], [getMempoolBlocks]
    serves one summary per returned block, in the same order and with the
    block's [nTx], and these [nTx] add up to the number of entries of the
    mempool: every entry is counted in exactly one summary. *)
Theorem published_summaries (memPool : mempool) (this : This.t) (h : heap) :
  let res := updateMempoolBlocks memPool true this h in
  map Summary.nTx (getMempoolBlocks res.1.2) = map Block.nTx res.1.1 ∧
  foldr (λ s acc, (Summary.nTx s + acc)%nat) 0%nat (getMempoolBlocks res.1.2) =
    length memPool.
Proof.
  unfold updateMempoolBlocks, getMempoolBlocks.
  pose proof (calculateMempoolBlocks_count (resolveLoop memPool h).1.2
                (finalSorted memPool h)) as Hc.
  destruct (calculateMempoolBlocks _ _) as [bs h2]. simpl in *.
  rewrite (finalSorted_Permutation memPool h), length_map in Hc.
  rewrite <- Hc. split.
  - rewrite map_map. by apply map_ext.
  - clear Hc. induction bs as [|b bs IH]; [done|]. simpl. by rewrite IH.
Qed.

End MempoolBlocks.

(** ** The resolver instance respects the frame conditions *)

Lemma assign_field {A} (field : Tx.t → A) r f (h : heap) x :
  (∀ tx, field (f tx) = field tx) → field (assign r f h x) = field (h x).
Proof.
  intros Hf. destruct (decide (r = x)) as [->|Hne].
  - by rewrite assign_eq.
  - by rewrite assign_ne.
Qed.

Lemma liftStep_field {A} (field : Tx.t → A) candidate h p x :
  (∀ v tx, field (Tx.set_bestDescendant v tx) = field tx) →
  field (Common.liftStep candidate h p x) = field (h x).
Proof.
  intros Hf. unfold Common.liftStep.
  destruct (Tx.bestDescendant (h p)); [case_decide|]; try done;
    by apply assign_field.
Qed.

Lemma liftLoop_field {A} (field : Tx.t → A) candidate h l x :
  (∀ v tx, field (Tx.set_bestDescendant v tx) = field tx) →
  field (foldl (Common.liftStep candidate) h l x) = field (h x).
Proof.
  intros Hf. induction l as [|p l IH] using rev_ind; [done|].
  rewrite foldl_app. simpl. by rewrite liftStep_field.
Qed.

Lemma Common_resolver_keeps {A} (field : Tx.t → A) :
  (∀ v tx, field (Tx.set_bestDescendant v tx) = field tx) →
  (∀ v tx, field (Tx.set_ancestors v tx) = field tx) →
  (∀ v tx, field (Tx.set_effectiveFeePerVsize v tx) = field tx) →
  (∀ v tx, field (Tx.set_cpfpChecked v tx) = field tx) →
  keeps field Common.setRelativesAndGetCpfpInfo.
Proof.
  intros H1 H2 H3 H4 r memPool h x. unfold Common.setRelativesAndGetCpfpInfo.
  rewrite !assign_field by done. by apply liftLoop_field.
Qed.

Lemma Common_resolver_own_rate :
  resolves_own_rate Common.setRelativesAndGetCpfpInfo.
Proof.
  intros r memPool h x Hne. unfold Common.setRelativesAndGetCpfpInfo.
  rewrite !assign_ne by done. by apply liftLoop_field.
Qed.

(** ** Closed examples *)

(** Scenario S4 with one removal and one addition: block 0 goes from
    [aa@5, bb@3] to [aa@7, cc]. *)
Lemma calculateMempoolDeltas_spec_witness :
  (∀ p, p ∈ prevSample → NoDup (txids (Block.transactions p))) ∧
  length (calculateMempoolDeltas prevSample newSample) = 1%nat ∧
  ∃ d, calculateMempoolDeltas prevSample newSample !! 0%nat = Some d ∧
       Delta.removed d = ["bb"] ∧
       txids (Delta.added d) = ["cc"] ∧
       Change.mk "aa" (Some (num 7)) ∈ Delta.changed d.
Proof.
  assert (∀ p, p ∈ prevSample → NoDup (txids (Block.transactions p))) as Hnd.
  { intros p ->%list_elem_of_singleton. apply (bool_decide_unpack _). by vm_compute. }
  split; [exact Hnd|].
  destruct (calculateMempoolDeltas_spec prevSample newSample Hnd) as [Hlen Hat].
  split; [exact Hlen|].
  destruct (Hat 0%nat _ _ eq_refl eq_refl) as (d & Hd & Hr & Ha & Hc).
  exists d. split; [exact Hd|]. split; [by rewrite Hr|]. split; [by rewrite Ha|].
  apply Hc.
  exists (Stripped.mk "aa" 1000 (num 100) (Some (num 7))),
         (Stripped.mk "aa" 1000 (num 100) (Some (num 5))).
  split; [left|]. split; [left|]. split; [done|]. split; [|done].
  intros [=].
Defined.

(** Delta soundness on the same two snapshots. *)
Lemma delta_soundness_witness :
  ∃ d, calculateMempoolDeltas prevSample newSample !! 0%nat = Some d ∧
    (list_to_set ["aa"; "bb"] ∖ list_to_set (Delta.removed d))
      ∪ list_to_set (txids (Delta.added d))
    =@{gset string} list_to_set ["aa"; "cc"].
Proof.
  apply (delta_soundness prevSample newSample 0%nat
           (blockWith [Stripped.mk "aa" 1000 (num 100) (Some (num 5));
                       Stripped.mk "bb" 1000 (num 100) (Some (num 3))])
           (blockWith [Stripped.mk "aa" 1000 (num 100) (Some (num 7));
                       Stripped.mk "cc" 1000 (num 100) None])); reflexivity.
Defined.

(** A transaction of 5000000 weight units under a block weight of 4000000. *)
Lemma heavy_transaction_not_retained_witness :
  (∀ r, r ∈ [0%nat; 1%nat] → 0 ≤ Tx.weight (oversizeHeap r)) ∧
  (0%nat ∉ fitTransactions 4000000 oversizeHeap [0%nat; 1%nat]) ∧
  Block.transactions
    (dataToMempoolBlocks 4000000 Common.stripTransaction
       Common.calcEffectiveFeeStatistics oversizeHeap [0%nat]) = [].
Proof.
  assert (∀ l r, r ∈ l → l ⊆ [0%nat; 1%nat] → 0 ≤ Tx.weight (oversizeHeap r))
    as Hpos.
  { intros l r Hr Hl. apply Hl in Hr.
    apply elem_of_cons in Hr as [->|Hr]; [by vm_compute|].
    apply list_elem_of_singleton in Hr as ->. by vm_compute. }
  assert (num 4000000 * Q2Qc (6 # 10) < num (Tx.weight (oversizeHeap 0%nat)))%Qc
    as Hheavy by reflexivity.
  split; [intros r Hr; by apply (Hpos [0%nat; 1%nat])|]. split.
  - destruct (heavy_transaction_not_retained 4000000 Common.stripTransaction
                Common.calcEffectiveFeeStatistics oversizeHeap [0%nat; 1%nat])
      as (_ & Hnot & _).
    + intros r Hr. by apply (Hpos [0%nat; 1%nat]).
    + apply Hnot; [left|exact Hheavy].
  - destruct (heavy_transaction_not_retained 4000000 Common.stripTransaction
                Common.calcEffectiveFeeStatistics oversizeHeap [0%nat])
      as (_ & _ & Hone).
    + intros r Hr. apply (Hpos [0%nat]); [done|].
      intros x ->%list_elem_of_singleton. left.
    + by destruct (Hone 0%nat eq_refl Hheavy) as (_ & _ & Hempty).
Defined.

(** Three half-block transactions under the default configuration. *)
Lemma calculateMempoolBlocks_length_witness :
  1 ≤ 8 ∧
  Z.of_nat (length (calculateMempoolBlocks 4000000 8 Common.stripTransaction
                      Common.calcEffectiveFeeStatistics halfBlockHeap
                      [0%nat; 1%nat; 2%nat]).1) ≤ 8.
Proof.
  split; [lia|]. apply calculateMempoolBlocks_length. lia.
Defined.

(** Three half-block transactions: the first block holds two of them and
    is within the block weight.  A transaction of 5000000 weight units
    followed by a small one: the second block holds it alone. *)
Lemma block_weight_bound_witness :
  0 ≤ 4000000 ∧
  (∃ b g,
     (calculateMempoolBlocks 4000000 8 Common.stripTransaction
        Common.calcEffectiveFeeStatistics halfBlockHeap [0%nat; 1%nat; 2%nat]).1
       !! 0%nat = Some b ∧
     packedBlocks 4000000 8 Common.stripTransaction
       Common.calcEffectiveFeeStatistics halfBlockHeap [0%nat; 1%nat; 2%nat]
       !! 0%nat = Some g ∧
     Block.transactionIds b = ["h1"; "h2"] ∧
     sumWeights halfBlockHeap g ≤ 4000000) ∧
  (∃ b g,
     (calculateMempoolBlocks 4000000 8 Common.stripTransaction
        Common.calcEffectiveFeeStatistics oversizeHeap [0%nat; 1%nat]).1
       !! 1%nat = Some b ∧
     packedBlocks 4000000 8 Common.stripTransaction
       Common.calcEffectiveFeeStatistics oversizeHeap [0%nat; 1%nat]
       !! 1%nat = Some g ∧
     Block.transactionIds b = ["aa"] ∧
     ∃ r, g = [r] ∧ 4000000 < Tx.weight (oversizeHeap r)).
Proof.
  assert (0 ≤ 4000000) as Hpos by lia.
  split; [exact Hpos|]. split.
  - eexists.
    destruct (block_weight_bound 4000000 8 Common.stripTransaction
                Common.calcEffectiveFeeStatistics halfBlockHeap
                [0%nat; 1%nat; 2%nat] Hpos 0%nat _ eq_refl)
      as (g & Hg & Hids & _ & Hle).
    { vm_compute. lia. }
    exists g. split; [reflexivity|]. split; [exact Hg|]. split; [reflexivity|].
    destruct Hle as [Hle|(r & -> & _)]; [exact Hle|].
    vm_compute in Hg. discriminate Hg.
  - eexists.
    destruct (block_weight_bound 4000000 8 Common.stripTransaction
                Common.calcEffectiveFeeStatistics oversizeHeap
                [0%nat; 1%nat] Hpos 1%nat _ eq_refl)
      as (g & Hg & Hids & _ & Hle).
    { vm_compute. lia. }
    exists g. split; [reflexivity|]. split; [exact Hg|]. split; [reflexivity|].
    destruct Hle as [Hle|Hone]; [|exact Hone].
    exfalso. vm_compute in Hg. injection Hg as <-. vm_compute in Hle.
    by apply Hle.
Defined.

(** The second transaction of block 0 sits at [500000 + 500000 / 2]. *)
Lemma positions_in_block_witness :
  NoDup [0%nat; 1%nat; 2%nat] ∧
  (∀ r, r ∈ [0%nat; 1%nat; 2%nat] → (0 < Tx.vsize (halfBlockHeap r))%Qc) ∧
  Tx.position
    ((calculateMempoolBlocks 4000000 8 Common.stripTransaction
        Common.calcEffectiveFeeStatistics halfBlockHeap [0%nat; 1%nat; 2%nat]).2
       1%nat)
  = Some (Position.mk 0 (num 500000 + num 500000 / num 2)%Qc).
Proof.
  assert (NoDup [0%nat; 1%nat; 2%nat]) as Hnd.
  { apply (bool_decide_unpack _). by vm_compute. }
  assert (∀ r, r ∈ [0%nat; 1%nat; 2%nat] → (0 < Tx.vsize (halfBlockHeap r))%Qc)
    as Hpos.
  { intros r Hr. repeat (apply elem_of_cons in Hr as [->|Hr]; [by vm_compute|]).
    by apply elem_of_nil in Hr. }
  split; [exact Hnd|]. split; [exact Hpos|].
  destruct (positions_in_block 4000000 8 Common.stripTransaction
              Common.calcEffectiveFeeStatistics halfBlockHeap
              [0%nat; 1%nat; 2%nat] Hnd Hpos 0%nat [0%nat; 1%nat] eq_refl)
    as (_ & Hat & _).
  rewrite (Hat 1%nat 1%nat eq_refl). do 2 f_equal.
  all: apply Qc_is_canon; reflexivity.
Defined.

(** The sample mempool is keyed by txid. *)
Lemma sampleMempool_keyed : keyed_by_txid sampleHeap sampleMempool.
Proof.
  split.
  - apply (bool_decide_unpack _). by vm_compute.
  - intros k r Hr.
    repeat (apply elem_of_cons in Hr as [[= -> ->]|Hr]; [reflexivity|]).
    by apply elem_of_nil in Hr.
Qed.

(** The fast path on the three sample transactions. *)
Lemma projected_txids_witness :
  keeps Tx.txid Common.setRelativesAndGetCpfpInfo ∧
  keyed_by_txid sampleHeap sampleMempool ∧
  NoDup (concat (map Block.transactionIds
           (updateMempoolBlocks 4000000 8 Common.stripTransaction
              Common.calcEffectiveFeeStatistics
              Common.setRelativesAndGetCpfpInfo sampleMempool true
              (This.mk [] []) sampleHeap).1.1)).
Proof.
  assert (keeps Tx.txid Common.setRelativesAndGetCpfpInfo) as Hk
    by (by apply Common_resolver_keeps).
  split; [exact Hk|]. split; [exact sampleMempool_keyed|].
  apply (projected_txids 4000000 8 Common.stripTransaction
           Common.calcEffectiveFeeStatistics Common.setRelativesAndGetCpfpInfo
           sampleMempool true (This.mk [] []) sampleHeap Hk sampleMempool_keyed).
Defined.

(** Nine full-block transactions: the ninth is beyond the resolver's cap
    and keeps the rate it entered with. *)
Lemma resolver_weight_cap_witness :
  keyed_by_txid fullHeap fullMempool ∧
  firstSorted fullMempool fullHeap !! 8%nat = Some 8%nat ∧
  RESOLVE_WEIGHT_CAP < sumWeights fullHeap (take 9 (firstSorted fullMempool fullHeap)) ∧
  (8%nat ∉ resolved Common.setRelativesAndGetCpfpInfo fullMempool fullHeap) ∧
  Tx.effectiveFeePerVsize
    ((updateMempoolBlocks 4000000 8 Common.stripTransaction
        Common.calcEffectiveFeeStatistics Common.setRelativesAndGetCpfpInfo
        fullMempool false (This.mk [] []) fullHeap).2 8%nat) = num 5.
Proof.
  assert (keyed_by_txid fullHeap fullMempool) as Hkeyed.
  { split.
    - apply (bool_decide_unpack _). by vm_compute.
    - intros k r Hr.
      repeat (apply elem_of_cons in Hr as [[= -> ->]|Hr]; [reflexivity|]).
      by apply elem_of_nil in Hr. }
  assert (firstSorted fullMempool fullHeap !! 8%nat = Some 8%nat) as Hi
    by (by vm_compute).
  assert (RESOLVE_WEIGHT_CAP <
          sumWeights fullHeap (take 9 (firstSorted fullMempool fullHeap))) as Hcap
    by (by vm_compute).
  split; [exact Hkeyed|]. split; [exact Hi|]. split; [exact Hcap|].
  destruct (resolver_weight_cap 4000000 8 Common.stripTransaction
              Common.calcEffectiveFeeStatistics Common.setRelativesAndGetCpfpInfo
              fullMempool false (This.mk [] []) fullHeap)
    as (_ & _ & Hat); [| | |exact Hkeyed|].
  - by apply Common_resolver_keeps.
  - by apply Common_resolver_keeps.
  - apply Common_resolver_own_rate.
  - destruct (Hat 8%nat 8%nat Hi Hcap) as (Hnot & Hrate & _).
    split; [exact Hnot|]. rewrite Hrate. apply Qc_is_canon. by vm_compute.
Defined.

(** C2 as stated fails: under the default configuration, a transaction of
    5000000 weight units followed by a small one gives three blocks, an
    empty one, one of 5000000 weight units, and the small one; the second
    is not the last and exceeds [BLOCK_WEIGHT_UNITS]. *)
Lemma oversize_block_counterexample :
  let blocks :=
    (calculateMempoolBlocks 4000000 8 Common.stripTransaction
       Common.calcEffectiveFeeStatistics oversizeHeap [0%nat; 1%nat]).1 in
  map Block.transactionIds blocks = [[]; ["aa"]; ["bb"]] ∧
  packedBlocks 4000000 8 Common.stripTransaction
    Common.calcEffectiveFeeStatistics oversizeHeap [0%nat; 1%nat]
    = [[]; [0%nat]; [1%nat]] ∧
  ∃ b, blocks !! 1%nat = Some b ∧ (2 < length blocks)%nat ∧
       Block.blockVSize b = (num 5000000 / num 4)%Qc ∧
       ¬ sumWeights oversizeHeap [0%nat] ≤ 4000000.
Proof.
  split; [by vm_compute|]. split; [by vm_compute|].
  eexists. split; [reflexivity|]. split; [vm_compute; lia|].
  split; [apply Qc_is_canon; reflexivity|]. vm_compute. by intros H.
Qed.

(** C1 as stated fails.  Under the default configuration, the ninth of
    nine full-block transactions has a running weight of 36000000, above
    [BLOCK_WEIGHT_UNITS × MEMPOOL_BLOCKS_AMOUNT], and ends the call with the
    rate 5 it entered with, not with its [feePerVsize] of 1.  And with
    [BLOCK_WEIGHT_UNITS = 1000000] and [MEMPOOL_BLOCKS_AMOUNT = 8], the ninth
    of nine transactions of 1000000 weight units has a running weight of
    9000000, above the product 8000000, and is passed to the resolver. *)
Lemma stale_rate_counterexample :
  (firstSorted fullMempool fullHeap !! 8%nat = Some 8%nat ∧
   4000000 * 8 < sumWeights fullHeap (take 9 (firstSorted fullMempool fullHeap)) ∧
   let h' := (updateMempoolBlocks 4000000 8 Common.stripTransaction
                Common.calcEffectiveFeeStatistics
                Common.setRelativesAndGetCpfpInfo
                fullMempool false (This.mk [] []) fullHeap).2 in
   Tx.effectiveFeePerVsize (h' 8%nat) = num 5 ∧
   Tx.feePerVsize (h' 8%nat) = num 1 ∧
   Tx.effectiveFeePerVsize (h' 8%nat) ≠ Tx.feePerVsize (h' 8%nat)) ∧
  (firstSorted fullMempool smallBlocksHeap !! 8%nat = Some 8%nat ∧
   1000000 * 8 <
     sumWeights smallBlocksHeap (take 9 (firstSorted fullMempool smallBlocksHeap)) ∧
   8%nat ∈ resolved Common.setRelativesAndGetCpfpInfo fullMempool smallBlocksHeap).
Proof.
  split.
  - split; [by vm_compute|]. split; [by vm_compute|]. cbv zeta.
    split; [apply Qc_is_canon; by vm_compute|].
    split; [apply Qc_is_canon; by vm_compute|].
    intros H. apply (f_equal Qcanon.this) in H. vm_compute in H. discriminate H.
  - split; [by vm_compute|]. split; [by vm_compute|].
    apply (bool_decide_unpack _). by vm_compute.
Qed.

(** ** The scenarios of the specification *)

(** S1: a single transaction of fee 1000 and weight 400 gives one block,
    and sits at vsize 50 of block 0. *)
Example scenario_single_transaction :
  let res := updateMempoolBlocks 4000000 8 Common.stripTransaction
               Common.calcEffectiveFeeStatistics
               Common.setRelativesAndGetCpfpInfo
               [("aa", 0%nat)] false (This.mk [] []) sampleHeap in
  map (λ b, (Block.nTx b, Block.blockSize b, Block.totalFees b)) res.1.1
    = [(1%nat, 100, 1000)] ∧
  map Block.blockVSize res.1.1 = [num 100] ∧
  Position.block <$> Tx.position (res.2 0%nat) = Some 0%nat ∧
  Position.vsize <$> Tx.position (res.2 0%nat) = Some (num 50).
Proof.
  cbv zeta. split; [by vm_compute|].
  split; [apply (bool_decide_unpack _); by vm_compute|].
  split; [by vm_compute|]. apply (bool_decide_unpack _). by vm_compute.
Qed.

(** S2: the child lifts its parent; both end at the package rate 10 and are
    packed in block 0. *)
Example scenario_cpfp_lift :
  let res := updateMempoolBlocks 4000000 8 Common.stripTransaction
               Common.calcEffectiveFeeStatistics
               Common.setRelativesAndGetCpfpInfo
               cpfpMempool false (This.mk [] []) cpfpHeap in
  Tx.effectiveFeePerVsize (res.2 0%nat) = num 10 ∧
  Tx.effectiveFeePerVsize (res.2 1%nat) = num 10 ∧
  map Block.transactionIds res.1.1 = [["cc"; "pp"]].
Proof.
  cbv zeta. split; [apply Qc_is_canon; by vm_compute|].
  split; [apply Qc_is_canon; by vm_compute|]. by vm_compute.
Qed.

(** S3: ten transactions of half a block each, with three blocks allowed:
    two blocks of two, and the last block absorbs the remaining six. *)
Example scenario_weight_overflow :
  map Block.transactionIds
    (calculateMempoolBlocks 4000000 3 Common.stripTransaction
       Common.calcEffectiveFeeStatistics overflowHeap (seq 0 10)).1
  = [["a"; "b"]; ["c"; "d"]; ["e"; "f"; "g"; "h"; "i"; "j"]].
Proof. by vm_compute. Qed.

(** ** Closed examples for the further properties *)

Lemma Common_resolver_keeps_other {A} (field : Tx.t → A) :
  (∀ v tx, field (Tx.set_bestDescendant v tx) = field tx) →
  keeps_other field Common.setRelativesAndGetCpfpInfo.
Proof.
  intros Hf r memPool h x Hne. unfold Common.setRelativesAndGetCpfpInfo.
  rewrite !assign_ne by done. by apply liftLoop_field.
Qed.

(** A block that appears gives all its transactions as added; a block
    that disappears gives all its txids as removed. *)
Lemma deltas_one_sided_witness :
  calculateMempoolDeltas [] newSample !! 0%nat =
    Some (Delta.mk [Stripped.mk "aa" 1000 (num 100) (Some (num 7));
                    Stripped.mk "cc" 1000 (num 100) None] [] []) ∧
  calculateMempoolDeltas prevSample [] !! 0%nat =
    Some (Delta.mk [] ["aa"; "bb"] []).
Proof.
  split.
  - exact (proj1 (deltas_one_sided [] newSample 0%nat) _ eq_refl eq_refl).
  - exact (proj1 (proj2 (deltas_one_sided prevSample [] 0%nat)) _ eq_refl eq_refl).
Defined.

(** An unchanged snapshot gives one empty delta. *)
Lemma deltas_self_witness :
  (∀ b, b ∈ newSample → NoDup (txids (Block.transactions b))) ∧
  calculateMempoolDeltas newSample newSample = [Delta.mk [] [] []].
Proof.
  assert (∀ b, b ∈ newSample → NoDup (txids (Block.transactions b))) as Hnd.
  { intros b ->%list_elem_of_singleton. apply (bool_decide_unpack _). by vm_compute. }
  split; [exact Hnd|]. exact (deltas_self newSample Hnd).
Defined.

(** The three parts of the delta between the two sample snapshots. *)
Lemma delta_parts_disjoint_witness :
  ∃ d, calculateMempoolDeltas prevSample newSample !! 0%nat = Some d ∧
    (∀ t, t ∈ Delta.removed d → (t ∉ txids (Delta.added d))) ∧
    (∀ c, c ∈ Delta.changed d →
       (Change.txid c ∉ Delta.removed d) ∧
       (Change.txid c ∉ txids (Delta.added d))).
Proof.
  destruct (delta_parts_disjoint prevSample newSample 0%nat _ _ eq_refl eq_refl)
    as (d & Hd & Hr & _ & Hc).
  exists d. split; [exact Hd|]. split.
  - intros t Ht. by destruct (Hr t Ht) as (_ & _ & H).
  - intros c Hin. destruct (Hc c Hin) as (_ & _ & H1 & H2). by split.
Defined.

(** Three transactions of 400 weight units are all retained. *)
Lemma light_block_retained_in_full_witness :
  (∀ r, r ∈ [0%nat; 1%nat; 2%nat] → 0 ≤ Tx.weight (sampleHeap r)) ∧
  txids (Block.transactions
           (dataToMempoolBlocks 4000000 Common.stripTransaction
              Common.calcEffectiveFeeStatistics sampleHeap
              [0%nat; 1%nat; 2%nat])) = ["aa"; "bb"; "cc"].
Proof.
  assert (∀ r, r ∈ [0%nat; 1%nat; 2%nat] → 0 ≤ Tx.weight (sampleHeap r)) as Hw.
  { intros r Hr. repeat (apply elem_of_cons in Hr as [->|Hr]; [by vm_compute|]).
    by apply elem_of_nil in Hr. }
  split; [exact Hw|].
  rewrite (light_block_retained_in_full 4000000 Common.stripTransaction
             Common.calcEffectiveFeeStatistics sampleHeap [0%nat; 1%nat; 2%nat] Hw).
  - by vm_compute.
  - intros r Hr. repeat (apply elem_of_cons in Hr as [->|Hr]; [by vm_compute|]).
    by apply elem_of_nil in Hr.
Defined.

(** Three half-block transactions: object 2 is placed in block 1, and an
    object outside the input is left alone. *)
Lemma calculateMempoolBlocks_writes_positions_witness :
  (∃ p, Tx.position
          ((calculateMempoolBlocks 4000000 8 Common.stripTransaction
              Common.calcEffectiveFeeStatistics halfBlockHeap
              [0%nat; 1%nat; 2%nat]).2 2%nat) = Some p ∧
        (Position.block p < 2)%nat) ∧
  (calculateMempoolBlocks 4000000 8 Common.stripTransaction
     Common.calcEffectiveFeeStatistics halfBlockHeap
     [0%nat; 1%nat; 2%nat]).2 5%nat = halfBlockHeap 5%nat.
Proof.
  destruct (calculateMempoolBlocks_writes_positions 4000000 8
              Common.stripTransaction Common.calcEffectiveFeeStatistics
              halfBlockHeap [0%nat; 1%nat; 2%nat]) as (_ & Hout & Hin).
  split.
  - destruct (Hin 2%nat) as (p & Hp & Hlt).
    + apply (bool_decide_unpack _). by vm_compute.
    + exists p. split; [exact Hp|].
      assert (length (calculateMempoolBlocks 4000000 8 Common.stripTransaction
                        Common.calcEffectiveFeeStatistics halfBlockHeap
                        [0%nat; 1%nat; 2%nat]).1 = 2%nat) as Hl by (by vm_compute).
      by rewrite Hl in Hlt.
  - apply Hout. apply (bool_decide_unpack _). by vm_compute.
Defined.

(** Three half-block transactions: the second block starts with the
    transaction that did not fit in the first. *)
Lemma packing_is_greedy_witness :
  packedBlocks 4000000 8 Common.stripTransaction
    Common.calcEffectiveFeeStatistics halfBlockHeap [0%nat; 1%nat; 2%nat]
    = [[0%nat; 1%nat]; [2%nat]] ∧
  ∃ r rest, [2%nat] = r :: rest ∧
    4000000 < sumWeights halfBlockHeap [0%nat; 1%nat] + Tx.weight (halfBlockHeap r) ∧
    Z.of_nat 0 ≠ 8 - 1.
Proof.
  assert (packedBlocks 4000000 8 Common.stripTransaction
            Common.calcEffectiveFeeStatistics halfBlockHeap [0%nat; 1%nat; 2%nat]
          = [[0%nat; 1%nat]; [2%nat]]) as Hp by (by vm_compute).
  split; [exact Hp|].
  apply (packing_is_greedy 4000000 8 Common.stripTransaction
           Common.calcEffectiveFeeStatistics halfBlockHeap
           [0%nat; 1%nat; 2%nat] 0%nat [0%nat; 1%nat] [2%nat]);
    by rewrite Hp.
Defined.

(** A transaction of 5000000 weight units at the head of the input leaves
    an empty first block. *)
Lemma empty_block_only_first_witness :
  4000000 < Tx.weight (oversizeHeap 0%nat) ∧
  ∃ b, (calculateMempoolBlocks 4000000 8 Common.stripTransaction
          Common.calcEffectiveFeeStatistics oversizeHeap [0%nat; 1%nat]).1
         !! 0%nat = Some b ∧
       Block.nTx b = 0%nat ∧ Block.transactionIds b = [].
Proof.
  assert (4000000 < Tx.weight (oversizeHeap 0%nat)) as Hw by (by vm_compute).
  split; [exact Hw|].
  apply (proj2 (empty_block_only_first 4000000 8 Common.stripTransaction
                  Common.calcEffectiveFeeStatistics oversizeHeap [0%nat; 1%nat])
           0%nat [1%nat] eq_refl Hw).
  lia.
Defined.

(** Three transactions of 400 weight units give one block. *)
Lemma single_block_when_fits_witness :
  sumWeights sampleHeap [0%nat; 1%nat; 2%nat] ≤ 4000000 ∧
  length (calculateMempoolBlocks 4000000 8 Common.stripTransaction
            Common.calcEffectiveFeeStatistics sampleHeap
            [0%nat; 1%nat; 2%nat]).1 = 1%nat ∧
  packedBlocks 4000000 8 Common.stripTransaction
    Common.calcEffectiveFeeStatistics sampleHeap [0%nat; 1%nat; 2%nat]
    = [[0%nat; 1%nat; 2%nat]].
Proof.
  assert (sumWeights sampleHeap [0%nat; 1%nat; 2%nat] ≤ 4000000) as Hs
    by (by vm_compute).
  split; [exact Hs|].
  destruct (single_block_when_fits 4000000 8 Common.stripTransaction
              Common.calcEffectiveFeeStatistics sampleHeap [0%nat; 1%nat; 2%nat])
    as [Hb Hp]; [done| |exact Hs|].
  - intros r Hr. repeat (apply elem_of_cons in Hr as [->|Hr]; [by vm_compute|]).
    by apply elem_of_nil in Hr.
  - split; [by rewrite Hb|exact Hp].
Defined.

(** Nine full-block transactions: the resolver is called on a prefix of
    the first sort. *)
Lemma resolved_is_prefix_witness :
  keeps Tx.weight Common.setRelativesAndGetCpfpInfo ∧
  ∃ n, (n ≤ 9)%nat ∧
    resolved Common.setRelativesAndGetCpfpInfo fullMempool fullHeap =
    take n (firstSorted fullMempool fullHeap).
Proof.
  assert (keeps Tx.weight Common.setRelativesAndGetCpfpInfo) as Hk
    by (by apply Common_resolver_keeps).
  split; [exact Hk|].
  destruct (resolved_is_prefix Common.setRelativesAndGetCpfpInfo
              fullMempool fullHeap Hk) as (n & Hn & Hr & _).
  - intros r Hr.
    repeat (apply elem_of_cons in Hr as [->|Hr]; [by vm_compute|]).
    by apply elem_of_nil in Hr.
  - exists n. split; [|exact Hr].
    assert (length (firstSorted fullMempool fullHeap) = 9%nat) as Hl
      by (by vm_compute).
    by rewrite Hl in Hn.
Defined.

(** The fast path on the three sample transactions packs them in the
    order of the final sort. *)
Lemma packing_order_sorted_witness :
  keeps Tx.txid Common.setRelativesAndGetCpfpInfo ∧
  keyed_by_txid sampleHeap sampleMempool ∧
  concat (map Block.transactionIds
            (updateMempoolBlocks 4000000 8 Common.stripTransaction
               Common.calcEffectiveFeeStatistics
               Common.setRelativesAndGetCpfpInfo sampleMempool true
               (This.mk [] []) sampleHeap).1.1) =
    map (λ r, Tx.txid (sampleHeap r))
        (finalSorted Common.setRelativesAndGetCpfpInfo sampleMempool sampleHeap).
Proof.
  assert (keeps Tx.txid Common.setRelativesAndGetCpfpInfo) as Hk
    by (by apply Common_resolver_keeps).
  split; [exact Hk|]. split; [exact sampleMempool_keyed|].
  apply (packing_order_sorted 4000000 8 Common.stripTransaction
           Common.calcEffectiveFeeStatistics Common.setRelativesAndGetCpfpInfo
           sampleMempool true (This.mk [] []) sampleHeap Hk sampleMempool_keyed).
Defined.

(** Nine full-block transactions: the ninth is skipped by the resolver and
    ends flagged as unchecked, with no ancestors. *)
Lemma skipped_transaction_flags_witness :
  NoDup (map snd fullMempool) ∧
  firstSorted fullMempool fullHeap !! 8%nat = Some 8%nat ∧
  RESOLVE_WEIGHT_CAP < sumWeights fullHeap (take 9 (firstSorted fullMempool fullHeap)) ∧
  Tx.cpfpChecked
    ((updateMempoolBlocks 4000000 8 Common.stripTransaction
        Common.calcEffectiveFeeStatistics Common.setRelativesAndGetCpfpInfo
        fullMempool false (This.mk [] []) fullHeap).2 8%nat) = Some false ∧
  Tx.ancestors
    ((updateMempoolBlocks 4000000 8 Common.stripTransaction
        Common.calcEffectiveFeeStatistics Common.setRelativesAndGetCpfpInfo
        fullMempool false (This.mk [] []) fullHeap).2 8%nat) = Some [].
Proof.
  assert (NoDup (map snd fullMempool)) as Hnd.
  { apply (bool_decide_unpack _). by vm_compute. }
  assert (firstSorted fullMempool fullHeap !! 8%nat = Some 8%nat) as Hi
    by (by vm_compute).
  assert (RESOLVE_WEIGHT_CAP <
          sumWeights fullHeap (take 9 (firstSorted fullMempool fullHeap))) as Hcap
    by (by vm_compute).
  split; [exact Hnd|]. split; [exact Hi|]. split; [exact Hcap|].
  apply (skipped_transaction_flags 4000000 8 Common.stripTransaction
           Common.calcEffectiveFeeStatistics Common.setRelativesAndGetCpfpInfo
           fullMempool false (This.mk [] []) fullHeap 8%nat 8%nat);
    [by apply Common_resolver_keeps
    |by apply Common_resolver_keeps_other
    |by apply Common_resolver_keeps_other
    |exact Hnd|exact Hi|exact Hcap].
Defined.

Lemma workerBlocks_live block tx :
  block ∈ workerBlocks → tx ∈ block →
  liveRef sampleMempool tx = None ∨ liveRef sampleMempool tx = Some 1%nat ∨
  liveRef sampleMempool tx = Some 2%nat.
Proof.
  intros Hb Ht. unfold workerBlocks in Hb.
  repeat (apply elem_of_cons in Hb as [->|Hb];
          [repeat (apply elem_of_cons in Ht as [->|Ht];
                   [vm_compute; tauto|]);
           by apply elem_of_nil in Ht|]).
  by apply elem_of_nil in Hb.
Qed.

(** The sample worker reply does not mention ["aa"]: its object is left
    alone, and the fee of ["bb"] is kept. *)
Lemma processBlockTemplates_frame_witness :
  (processBlockTemplates 4000000 Common.stripTransaction
     Common.calcEffectiveFeeStatistics sampleMempool workerBlocks workerClusters
     false (This.mk [] []) sampleHeap).2 0%nat = sampleHeap 0%nat ∧
  Tx.fee ((processBlockTemplates 4000000 Common.stripTransaction
             Common.calcEffectiveFeeStatistics sampleMempool workerBlocks
             workerClusters false (This.mk [] []) sampleHeap).2 1%nat) = 2000.
Proof.
  destruct (processBlockTemplates_frame 4000000 Common.stripTransaction
              Common.calcEffectiveFeeStatistics sampleMempool workerBlocks
              workerClusters false (This.mk [] []) sampleHeap) as [Hs Hu].
  split.
  - apply Hu. intros block tx Hb Ht.
    destruct (workerBlocks_live block tx Hb Ht) as [->| [->| ->]]; discriminate.
  - destruct (Hs 1%nat) as (_ & -> & _). by vm_compute.
Defined.

(** The blocks built from the sample worker reply list the txids the
    mempool knows. *)
Lemma processBlockTemplates_transactionIds_witness :
  keyed_by_txid sampleHeap sampleMempool ∧
  Forall2 (λ b block,
             Block.transactionIds b =
               filter (λ k, is_Some (mempoolGet sampleMempool k))
                      (map Thread.txid block) ∧
             Block.nTx b = length (Block.transactionIds b))
          (processBlockTemplates 4000000 Common.stripTransaction
             Common.calcEffectiveFeeStatistics sampleMempool workerBlocks
             workerClusters false (This.mk [] []) sampleHeap).1.1
          workerBlocks.
Proof.
  split; [exact sampleMempool_keyed|].
  apply (processBlockTemplates_transactionIds 4000000 Common.stripTransaction
           Common.calcEffectiveFeeStatistics sampleMempool workerBlocks
           workerClusters false (This.mk [] []) sampleHeap sampleMempool_keyed).
Defined.

(** The walk over [cc, gone, bb, aa] for ["bb"]: ["cc"] is an ancestor,
    ["aa"] a descendant and ["gone"] is left out. *)
Lemma cluster_split_witness :
  ("bb" ∉ ["cc"; "gone"]) ∧
  is_Some (clusterRelative sampleMempool sampleHeap "bb") ∧
  foldl (clusterStep sampleMempool sampleHeap "bb") ([], [], false)
        ["cc"; "gone"; "bb"; "aa"] =
  ([Ancestor.mk "cc" 100 400], [Ancestor.mk "aa" 1000 400], true).
Proof.
  assert ("bb" ∉ ["cc"; "gone"]) as Hb.
  { apply (bool_decide_unpack _). by vm_compute. }
  assert (is_Some (clusterRelative sampleMempool sampleHeap "bb")) as Hp.
  { apply (bool_decide_unpack _). by vm_compute. }
  split; [exact Hb|]. split; [exact Hp|].
  rewrite (proj2 (cluster_split sampleMempool sampleHeap "bb"
                    ["cc"; "gone"; "bb"; "aa"])
             ["cc"; "gone"] ["aa"] eq_refl Hb Hp).
  by vm_compute.
Defined.

(** The sample worker reply: ["cc"] comes after ["bb"] and a stale
    transaction in block 0, so it sits at [100 + 100 / 2]; it keeps its
    rate, takes the worker's flag, and gets ["bb"] as descendant. *)
Lemma processBlockTemplates_writes_witness :
  NoDup (concat (map (omap (liveRef sampleMempool)) workerBlocks)) ∧
  let after :=
    (processBlockTemplates 4000000 Common.stripTransaction
       Common.calcEffectiveFeeStatistics sampleMempool workerBlocks
       workerClusters false (This.mk [] []) sampleHeap).2 2%nat in
  Tx.position after = Some (Position.mk 0 (num 150)) ∧
  Tx.effectiveFeePerVsize after = Tx.effectiveFeePerVsize (sampleHeap 2%nat) ∧
  Tx.cpfpChecked after = Some true ∧
  Tx.ancestors after = Some [] ∧
  Tx.descendants after = Some [Ancestor.mk "bb" 2000 400].
Proof.
  assert (NoDup (concat (map (omap (liveRef sampleMempool)) workerBlocks))) as Hnd.
  { apply (bool_decide_unpack _). by vm_compute. }
  split; [exact Hnd|]. cbv zeta.
  pose proof (processBlockTemplates_writes 4000000 Common.stripTransaction
                Common.calcEffectiveFeeStatistics sampleMempool workerBlocks
                workerClusters false (This.mk [] []) sampleHeap 0%nat 2%nat
                _ (Thread.mk "cc" None (Some "cc") (Some true)) 2%nat
                Hnd eq_refl eq_refl eq_refl) as H.
  cbv zeta in H. destruct H as (Hpos & Hrate & Hflag & Hrel).
  split; [|split; [exact Hrate|split; [exact Hflag|]]].
  - rewrite Hpos. do 2 f_equal. apply Qc_is_canon. by vm_compute.
  - destruct (_ ≫= _) as [cluster|] eqn:E in Hrel.
    + vm_compute in E. injection E as <-.
      destruct Hrel as (Ha & Hd & _). rewrite Ha, Hd. split; by vm_compute.
    + vm_compute in E. discriminate E.
Defined.

(** Filtering the sample worker reply first changes nothing. *)
Lemma staleFilter_redundant_witness :
  mempoolGet sampleMempool "" = None ∧
  map (map Thread.txid) (staleFilter sampleMempool workerBlocks) = [["bb"; "cc"]; []] ∧
  processBlockTemplates 4000000 Common.stripTransaction
    Common.calcEffectiveFeeStatistics sampleMempool
    (staleFilter sampleMempool workerBlocks) workerClusters true (This.mk [] [])
    sampleHeap =
  processBlockTemplates 4000000 Common.stripTransaction
    Common.calcEffectiveFeeStatistics sampleMempool workerBlocks workerClusters
    true (This.mk [] []) sampleHeap.
Proof.
  assert (mempoolGet sampleMempool "" = None) as He by (by vm_compute).
  split; [exact He|]. split; [by vm_compute|].
  exact (staleFilter_redundant 4000000 Common.stripTransaction
           Common.calcEffectiveFeeStatistics sampleMempool workerBlocks
           workerClusters true (This.mk [] []) sampleHeap He).
Defined.
